(** * spitzer_mir_ext: extinction-curve fitting scripts

    A shallow embedding of the numerical core of [calc_ext.py],
    [calc_ext_wG20.py] and [Figs/old/calc_ext_poly.py]: the closed-form
    curve shapes, the bounded log-likelihood [lnprob], the best-fit
    selection [get_best_fit_params] and the walker set-up and percentile
    summary of [p92_emcee].

    Number model.  Python floats are idealised as exact numbers: rationals
    ([Q]) in the sampling code, where every operation is a comparison, a
    sum, a product or a quotient and the definitions stay executable, and
    reals ([R]) in the curve shapes, which use [np.power] with a real
    exponent.  The one non-finite value the scripts produce on purpose,
    [-np.inf], is a constructor of its own.  Rounding, NaN and overflow are
    outside the model. *)

From Stdlib Require Import QArith Qround Reals Psatz.
From stdpp Require Import gmap strings list fin_maps sorting.

(** ** Python outcomes *)

Module Py.

(** The exceptions the embedded code can raise. *)
Inductive exn :=
| KeyError | IndexError | ValueError | AttributeError | NameError
| TypeError.

(** A Python call either returns a value or raises. *)
Inductive result (A : Type) :=
| Returned (a : A)
| Raised (e : exn).
Arguments Returned {A} a.
Arguments Raised {A} e.

Definition bind {A B} (r : result A) (k : A -> result B) : result B :=
  match r with
  | Returned a => k a
  | Raised e => Raised e
  end.

(** [d[k]] on a dict: a missing key raises [KeyError]. *)
Definition getitem {V} (d : gmap string V) (k : string) : result V :=
  match d !! k with
  | Some v => Returned v
  | None => Raised KeyError
  end.

(** [a[i]] on a sequence with a non-negative index: out of range raises
    [IndexError]. *)
Definition index {A} (a : list A) (i : nat) : result A :=
  match a !! i with
  | Some v => Returned v
  | None => Raised IndexError
  end.

End Py.
Export Py.

(** [x ← r; k] sequences two calls and propagates an exception. *)
#[export] Instance result_bind : MBind result := fun A B k r => Py.bind r k.
#[export] Instance result_ret : MRet result := fun A a => Returned a.

(** ** Numbers *)

(** Boolean comparisons on [Q], as Python's [<], [>] and [==] on floats. *)
Definition Qltb (a b : Q) : bool := negb (Qle_bool b a).
Definition Qgtb (a b : Q) : bool := Qltb b a.

(** A log-probability: a finite number or [-np.inf]. *)
Inductive lnp :=
| NegInf
| Fin (q : Q).

Definition lnp_ltb (a b : lnp) : bool :=
  match a, b with
  | _, NegInf => false
  | NegInf, Fin _ => true
  | Fin x, Fin y => Qltb x y
  end.

Definition lnp_gtb (a b : lnp) : bool := lnp_ltb b a.

Definition lnp_eqb (a b : lnp) : bool :=
  match a, b with
  | NegInf, NegInf => true
  | Fin x, Fin y => Qeq_bool x y
  | _, _ => false
  end.

Definition lnp_lt (a b : lnp) : Prop := lnp_ltb a b = true.
Definition lnp_le (a b : lnp) : Prop := lnp_ltb b a = false.
Definition lnp_eq (a b : lnp) : Prop := lnp_eqb a b = true.

(** ** Astropy models, as far as the scripts use them *)

(** [param_names] and [parameters] are parallel sequences; [bounds] and
    [fixed] are dicts keyed by parameter name; [evaluate] is the model's
    closed-form function of the input array and the parameter values. *)
Record Model := {
  param_names : list string;
  parameters : list Q;
  bounds : gmap string (option Q * option Q);
  fixed : gmap string bool;
  evaluate : list Q -> list Q -> result (list Q)
}.

(** Position of a name in [param_names]. *)
Fixpoint index_of (cname : string) (names : list string) : option nat :=
  match names with
  | [] => None
  | n :: rest =>
      if String.eqb n cname then Some 0%nat
      else S <$> index_of cname rest
  end.

(** [model.<cname>.value]. *)
Definition get_value (model : Model) (cname : string) : option Q :=
  i ← index_of cname (param_names model); parameters model !! i.

(** [exec("model.{}.value = {}".format(cname, v))]: the model object is
    updated in place, so the embedding returns the new state of the
    object.  The value goes through its text, which reads back as the same
    number.  A name the model does not have raises [AttributeError]. *)
Definition set_value (model : Model) (cname : string) (v : Q) : result Model :=
  match index_of cname (param_names model) with
  | Some i =>
      Returned {| param_names := param_names model;
                  parameters := <[i := v]> (parameters model);
                  bounds := bounds model;
                  fixed := fixed model;
                  evaluate := evaluate model |}
  | None => Raised AttributeError
  end.

(** [model(x)]. *)
Definition call (model : Model) (x : list Q) : result (list Q) :=
  evaluate model x (parameters model).

(** [dict(zip(keys, vals))]: later pairs overwrite earlier ones. *)
Definition dict_zip {V} (keys : list string) (vals : list V) : gmap string V :=
  foldl (fun d kv => <[kv.1 := kv.2]> d) ∅ (zip keys vals).

(** ** numpy array arithmetic *)

(** Element-wise binary operation on one-dimensional arrays with numpy's
    broadcasting: equal lengths pair up, a length-one array is stretched,
    anything else raises [ValueError]. *)
Definition np_binop (f : Q -> Q -> Q) (a b : list Q) : result (list Q) :=
  if (length a =? length b)%nat then Returned (zip_with f a b)
  else match a, b with
       | [a0], _ => Returned (map (f a0) b)
       | _, [b0] => Returned (map (fun x => f x b0) a)
       | _, _ => Raised ValueError
       end.

Definition np_sum (a : list Q) : Q := foldl Qplus 0%Q a.

Definition np_square (a : list Q) : list Q := map (fun v => (v ^ 2)%Q) a.

(** [-0.5 * np.sum(((model(x) - y) / uncs) ** 2)].  A zero uncertainty is
    outside the model: numpy divides by it to an infinity or a NaN, [Q]
    to zero. *)
Definition log_likelihood (model : Model) (x y uncs : list Q) : result lnp :=
  m ← call model x;
  d ← np_binop Qminus m y;
  r ← np_binop Qdiv d uncs;
  Returned (Fin (- (1 # 2) * np_sum (np_square r))%Q).

(** ** Bounds *)

(** A value violates a [(min, max)] pair when it is below a minimum that is
    not [None] or above a maximum that is not [None]. *)
Definition violates (b : option Q * option Q) (v : Q) : Prop :=
  (exists lo, b.1 = Some lo /\ (v < lo)%Q) \/
  (exists hi, b.2 = Some hi /\ (hi < v)%Q).

(** [lo is not None and v < lo]. *)
Definition below (v : Q) (lo : option Q) : bool :=
  match lo with
  | Some l => Qltb v l
  | None => false
  end.

(** [hi is not None and v > hi]. *)
Definition above (v : Q) (hi : option Q) : bool :=
  match hi with
  | Some h => Qgtb v h
  | None => false
  end.

(** ** The log-likelihood of [calc_ext_wG20.py]

    [Figs/old/calc_ext_poly.py] has the same text. *)

Module CalcExtWG20.

(** The [for k, cname in enumerate(param_names)] loop.  [Returned None]
    means the loop ran to its end, [Returned (Some v)] is an early
    [return v]. *)
Fixpoint lnprob_loop (params : list Q) (k : nat) (names : list string)
    (model : Model) : Model * result (option lnp) :=
  match names with
  | [] => (model, Returned None)
  | cname :: rest =>
      match bounds model !! cname with
      | None => (model, Raised KeyError)
      | Some (lo, hi) =>
          match params !! k with
          | None => (model, Raised IndexError)
          | Some v =>
              if below v lo then (model, Returned (Some NegInf))
              else if above v hi then (model, Returned (Some NegInf))
              else
                match set_value model cname v with
                | Returned model' => lnprob_loop params (S k) rest model'
                | Raised e => (model, Raised e)
                end
          end
      end
  end.

(** [lnprob(params, x, y, uncs, model, param_names)]: the state the
    model object is left in, and the outcome of the call. *)
Definition lnprob (params x y uncs : list Q) (model : Model)
    (names : list string) : Model * result lnp :=
  match lnprob_loop params 0 names model with
  | (model', Returned (Some v)) => (model', Returned v)
  | (model', Returned None) => (model', log_likelihood model' x y uncs)
  | (model', Raised e) => (model', Raised e)
  end.

End CalcExtWG20.

(** ** The log-likelihood of [calc_ext.py]

    The bounds are compared with [param_dict], the snapshot of the model's
    own values taken on entry. *)

Module CalcExt.

Fixpoint lnprob_loop (param_dict : gmap string Q) (params : list Q)
    (k : nat) (names : list string) (model : Model)
    : Model * result (option lnp) :=
  match names with
  | [] => (model, Returned None)
  | cname :: rest =>
      match bounds model !! cname with
      | None => (model, Raised KeyError)
      | Some (lo, hi) =>
          let is_below :=
            match lo with
            | Some l => c ← getitem param_dict cname; Returned (Qltb c l)
            | None => Returned false
            end in
          let is_above :=
            match hi with
            | Some h => c ← getitem param_dict cname; Returned (Qgtb c h)
            | None => Returned false
            end in
          match is_below with
          | Raised e => (model, Raised e)
          | Returned true => (model, Returned (Some NegInf))
          | Returned false =>
              match is_above with
              | Raised e => (model, Raised e)
              | Returned true => (model, Returned (Some NegInf))
              | Returned false =>
                  match params !! k with
                  | None => (model, Raised IndexError)
                  | Some v =>
                      match set_value model cname v with
                      | Returned model' =>
                          lnprob_loop param_dict params (S k) rest model'
                      | Raised e => (model, Raised e)
                      end
                  end
              end
          end
      end
  end.

Definition lnprob (params x y uncs : list Q) (model : Model)
    (names : list string) : Model * result lnp :=
  let param_dict := dict_zip (param_names model) (parameters model) in
  match lnprob_loop param_dict params 0 names model with
  | (model', Returned (Some v)) => (model', Returned v)
  | (model', Returned None) => (model', log_likelihood model' x y uncs)
  | (model', Raised e) => (model', Raised e)
  end.

End CalcExt.

(** ** The parameter store, as assignments leave it *)

(** The state of the model object after [model.<cname>.value = v]. *)
Definition store (model : Model) (cname : string) (v : Q) : Model :=
  match set_value model cname v with
  | Returned model' => model'
  | Raised _ => model
  end.

(** The state after a run of such assignments, first to last. *)
Definition assign (model : Model) (nvs : list (string * Q)) : Model :=
  foldl (fun m nv => store m nv.1 nv.2) model nvs.

Definition known (model : Model) (cname : string) : Prop :=
  is_Some (index_of cname (param_names model)).

Definition aligned (model : Model) : Prop :=
  length (parameters model) = length (param_names model).

(** ** Proposals taken and proposals refused *)

(** The model takes a proposed value for a parameter: the parameter is
    one of the model's, it has an entry in [bounds], and the value does
    not violate it. *)
Definition accepts (model : Model) (cname : string) (v : Q) : Prop :=
  known model cname /\
  exists b, bounds model !! cname = Some b /\ ~ violates b v.

Definition rejects (model : Model) (cname : string) (v : Q) : Prop :=
  exists b, bounds model !! cname = Some b /\ violates b v.

(** The weighted sum of squared residuals, one data point after the
    other: the sum over [i] of [((m_i - y_i) / uncs_i) ^ 2]. *)
Fixpoint weighted_sq_residuals (m y uncs : list Q) : Q :=
  match m, y, uncs with
  | mi :: m', yi :: y', ui :: uncs' =>
      (((mi - yi) / ui) ^ 2 + weighted_sq_residuals m' y' uncs')%Q
  | _, _, _ => 0%Q
  end.

(** Boolean forms of [accepts] and [rejects], for concrete runs. *)
Definition violatesb (b : option Q * option Q) (v : Q) : bool :=
  below v b.1 || above v b.2.

Definition acceptsb (model : Model) (cname : string) (v : Q) : bool :=
  match index_of cname (param_names model), bounds model !! cname with
  | Some _, Some b => negb (violatesb b v)
  | _, _ => false
  end.

Definition rejectsb (model : Model) (cname : string) (v : Q) : bool :=
  match bounds model !! cname with
  | Some b => violatesb b v
  | None => false
  end.

(** ** A two-parameter straight line, for concrete runs *)

(** [evaluate(x, a, b)] returns [a * x + b]; both parameters are bounded
    to [[0, 10]]. *)
Definition line_model (a b : Q) : Model :=
  {| param_names := ["a"; "b"];
     parameters := [a; b];
     bounds := {["a" := (Some 0%Q, Some 10%Q); "b" := (Some 0%Q, Some 10%Q)]};
     fixed := {["a" := false; "b" := false]};
     evaluate := fun x ps =>
       match ps with
       | [a'; b'] => Returned (map (fun xi => (a' * xi + b')%Q) x)
       | _ => Raised ValueError
       end |}.

(** ** The emcee sampler, as far as the scripts read it *)

(** [lnprobability] has one row per walker and one entry per stored step;
    [chain] has one parameter vector per walker and stored step. *)
Record Sampler := {
  lnprobability : list (list lnp);
  chain : list (list (list Q))
}.

(** [np.max] of a one-dimensional array; an empty array raises
    [ValueError]. *)
Definition np_max (a : list lnp) : result lnp :=
  match a with
  | [] => Raised ValueError
  | v :: rest =>
      Returned (foldl (fun m w => if lnp_ltb m w then w else m) v rest)
  end.

(** [np.where(a == v)]: the indices, in increasing order, of the entries
    equal to [v]; [i] is the index of the head of [a]. *)
Fixpoint np_where_eq (a : list lnp) (v : lnp) (i : nat) : list nat :=
  match a with
  | [] => []
  | w :: rest =>
      if lnp_eqb w v then i :: np_where_eq rest v (S i)
      else np_where_eq rest v (S i)
  end.

(** The initial value of [max_lnp], [-1e32]. *)
Definition max_lnp_init : lnp := Fin (inject_Z (- 10 ^ 32)).

(** ** [get_best_fit_params]

    The three scripts have the same text. *)

(** The loop [for k in range(nwalkers)], with the state [max_lnp] and
    [fit_params_best]; [rows] are the rows [k, k+1, ...] of
    [sampler.lnprobability]. *)
Fixpoint best_fit_loop (sampler : Sampler) (rows : list (list lnp)) (k : nat)
    (max_lnp : lnp) (fit_params_best : option (list Q))
    : result (option (list Q)) :=
  match rows with
  | [] => Returned fit_params_best
  | row :: rest =>
      tmax_lnp ← np_max row;
      if lnp_gtb tmax_lnp max_lnp then
        indx ← index (np_where_eq row tmax_lnp 0) 0;
        walker ← index (chain sampler) k;
        best ← index walker indx;
        best_fit_loop sampler rest (S k) tmax_lnp (Some best)
      else best_fit_loop sampler rest (S k) max_lnp fit_params_best
  end.

(** [get_best_fit_params(sampler)]; [Returned None] is Python's [None]. *)
Definition get_best_fit_params (sampler : Sampler) : result (option (list Q)) :=
  best_fit_loop sampler (lnprobability sampler) 0 max_lnp_init None.

(** The sampler keeps a parameter vector for every log-probability it
    keeps: [chain] and [lnprobability] agree on the number of walkers and
    of steps. *)
Definition same_shape (sampler : Sampler) : Prop :=
  Forall2 (fun (row : list lnp) (walker : list (list Q)) =>
             length row = length walker)
          (lnprobability sampler) (chain sampler).

(** Every walker has at least one stored step. *)
Definition has_steps (sampler : Sampler) : Prop :=
  Forall (fun row : list lnp => row <> []) (lnprobability sampler).

(** ** The order on log-probabilities, as propositions *)

(** The comparisons, read as propositions on the numbers. *)
Definition lnp_ltP (a b : lnp) : Prop :=
  match a, b with
  | _, NegInf => False
  | NegInf, Fin _ => True
  | Fin x, Fin y => (x < y)%Q
  end.

Definition lnp_leP (a b : lnp) : Prop :=
  match a, b with
  | NegInf, _ => True
  | Fin _, NegInf => False
  | Fin x, Fin y => (x <= y)%Q
  end.

Definition lnp_eqP (a b : lnp) : Prop :=
  match a, b with
  | NegInf, NegInf => True
  | Fin x, Fin y => (x == y)%Q
  | _, _ => False
  end.

(** ** Samplers for concrete runs *)

(** Two walkers, two stored steps, one parameter.  The maximum [-1] is at
    walker 0, step 1, and again at walker 1, step 0. *)
Definition two_walkers : Sampler :=
  {| lnprobability := [[Fin (-3); Fin (-1)]; [Fin (-1); Fin (-2)]];
     chain := [[[30]; [10]]; [[11]; [20]]]%Q |}.

(** One walker, one stored step, rejected with [-np.inf]. *)
Definition all_rejected : Sampler :=
  {| lnprobability := [[NegInf]];
     chain := [[[1]]]%Q |}.

(** ** Walker set-up of [p92_emcee] *)

(** [fit_param_names] when the caller gives none: the names of the model's
    parameters that are not fixed, in the model's order. *)
Fixpoint non_fixed (model : Model) (names : list string) : result (list string) :=
  match names with
  | [] => Returned []
  | cname :: rest =>
      f ← getitem (fixed model) cname;
      r ← non_fixed model rest;
      Returned (if f : bool then r else cname :: r)
  end.

Definition fit_names (model : Model) (fit_param_names : option (list string))
    : result (list string) :=
  match fit_param_names with
  | Some names => Returned names
  | None => non_fixed model (param_names model)
  end.

(** [p0_list]: the model's value of every fitted parameter. *)
Fixpoint initial_guess (param_dict : gmap string Q) (names : list string)
    : result (list Q) :=
  match names with
  | [] => Returned []
  | cname :: rest =>
      v ← getitem param_dict cname;
      r ← initial_guess param_dict rest;
      Returned (v :: r)
  end.

(** [p0[p0 == 0.0] = zero_start]. *)
Definition nudge_zeros (zero_start : Q) (p0 : list Q) : list Q :=
  map (fun v => if Qeq_bool v 0 then zero_start else v) p0.

(** [p0 * (1 + 1e-4 * np.random.normal(0, 1., ndim))] for walker [k];
    [normal k j] is component [j] of the [k]-th vector drawn. *)
Definition scatter (normal : nat -> nat -> Q) (p0 : list Q) (k : nat) : list Q :=
  imap (fun j v => (v * (1 + (1 # 10000) * normal k j))%Q) p0.

(** The two bound checks on component [k] of a walker, with the in-place
    writes [cp[k] = ...]. *)
Definition clamp_at (b : option Q * option Q) (k : nat) (cp : list Q)
    : result (list Q) :=
  cp1 ← match b.1 with
        | Some lo =>
            c ← index cp k;
            Returned (if Qltb c lo then <[k := lo]> cp else cp)
        | None => Returned cp
        end;
  match b.2 with
  | Some hi =>
      c ← index cp1 k;
      Returned (if Qgtb c hi then <[k := hi]> cp1 else cp1)
  | None => Returned cp1
  end.

(** [for k, cname in enumerate(fit_param_names)] on one walker. *)
Fixpoint clamp_walker (model : Model) (names : list string) (k : nat)
    (cp : list Q) : result (list Q) :=
  match names with
  | [] => Returned cp
  | cname :: rest =>
      b ← getitem (bounds model) cname;
      cp' ← clamp_at b k cp;
      clamp_walker model rest (S k) cp'
  end.

(** [for cp in p]. *)
Fixpoint clamp_walkers (model : Model) (names : list string)
    (p : list (list Q)) : result (list (list Q)) :=
  match p with
  | [] => Returned []
  | cp :: rest =>
      cp' ← clamp_walker model names 0 cp;
      rest' ← clamp_walkers model names rest;
      Returned (cp' :: rest')
  end.

(** The start positions [p] that [p92_emcee] hands to the sampler. *)
Definition init_walkers (zero_start : Q) (normal : nat -> nat -> Q)
    (model : Model) (fit_param_names : option (list string))
    : result (list (list Q)) :=
  names ← fit_names model fit_param_names;
  let ndim := length names in
  let nwalkers := (10 * ndim)%nat in
  p0_list ← initial_guess (dict_zip (param_names model) (parameters model)) names;
  let p0 := nudge_zeros zero_start p0_list in
  let p := scatter normal p0 <$> seq 0 nwalkers in
  clamp_walkers model names p.

(** [calc_ext.py] replaces a zero start value by [0.1],
    [calc_ext_wG20.py] by [2.4e-3]. *)
Definition calc_ext_init_walkers := init_walkers (1 # 10).
Definition wg20_init_walkers := init_walkers (24 # 10000).

(** What the two checks leave of a value [c]. *)
Definition clamp (b : option Q * option Q) (c : Q) : Q :=
  let c1 := if below c b.1 then default c b.1 else c in
  if above c1 b.2 then default c1 b.2 else c1.

(** A value is inside a [(min, max)] pair. *)
Definition within (b : option Q * option Q) (c : Q) : Prop :=
  (forall lo, b.1 = Some lo -> (lo <= c)%Q) /\
  (forall hi, b.2 = Some hi -> (c <= hi)%Q).

(** The pair describes an interval: a minimum and a maximum that are both
    set are in order. *)
Definition ordered (b : option Q * option Q) : Prop :=
  forall lo hi, b.1 = Some lo -> b.2 = Some hi -> (lo <= hi)%Q.

(** ** Curve shapes

    Over the reals; [np.power] is the real power, which numpy computes for
    a positive base. *)

Definition np_power (x y : R) : R := Rpower x y.

(** ** [Drude1D] of [Figs/old/calc_ext_poly.py] *)

Module Drude1D.

(** [Drude1D.evaluate(x, amplitude, x_0, fwhm)] at one point [x]. *)
Definition evaluate (x amplitude x_0 fwhm : R) : R :=
  (amplitude * ((fwhm / x_0) ^ 2)
   / ((x / x_0 - x_0 / x) ^ 2 + (fwhm / x_0) ^ 2))%R.

End Drude1D.

(** ** [G20] of [calc_ext_wG20.py] *)

Module G20.

(** The parameters of the model, in the order [evaluate] takes them. *)
Record params := {
  BKG_amp : R; BKG_lambda : R; BKG_b : R; BKG_n : R;
  FUV_amp : R; FUV_lambda : R; FUV_width : R;
  NUV_amp : R; NUV_lambda : R; NUV_width : R;
  SIL1_amp : R; SIL1_lambda : R; SIL1_width : R;
  SIL2_amp : R; SIL2_lambda : R; SIL2_width : R;
  FIR_amp : R; FIR_lambda : R; FIR_width : R
}.

(** [x_range = [1.0 / 1e3, 1.0 / 1e-3]]. *)
Definition x_range : R * R := (1 / 1000, 1 / (1 / 1000))%R.

(** [_g20_bkg_term] at one wavelength. *)
Definition _g20_bkg_term (in_lambda amplitude cen_wave b n : R) : R :=
  let l_norm := (in_lambda / cen_wave)%R in
  (amplitude / (np_power l_norm n + np_power l_norm (-1 * n) + b))%R.

(** [_g20_drude_term] at one wavelength. *)
Definition _g20_drude_term (waves amplitude cen_wave width : R) : R :=
  (amplitude * ((width / cen_wave) ^ 2)
   / ((waves / cen_wave - cen_wave / waves) ^ 2 + (width / cen_wave) ^ 2))%R.

(** [_get_x_in_wavenumbers] of [dust_extinction.helpers] on an array of
    plain floats: they are taken as wavenumbers in 1/micron. *)
Definition _get_x_in_wavenumbers (in_x : list R) : list R := in_x.

(** [x < lo or x > hi] for one wavenumber. *)
Definition out_of_range (x_range : R * R) (x : R) : bool :=
  if Rlt_dec x x_range.1 then true
  else if Rlt_dec x_range.2 x then true else false.

(** Modelled from the spec: [_test_valid_x_range] of
    [dust_extinction.helpers] is not part of the repository.  The spec has
    wavenumbers outside the declared range raise a validation error, and
    the docstring of [evaluate] names it: [ValueError], input x values
    outside of the defined range. *)
Definition _test_valid_x_range (x : list R) (x_range : R * R) : result unit :=
  if existsb (out_of_range x_range) x then Raised ValueError else Returned tt.

(** [G20.evaluate(in_x, BKG_amp, ..., FIR_width)]. *)
Definition evaluate (in_x : list R) (p : params) : result (list R) :=
  let x := _get_x_in_wavenumbers in_x in
  _ ← _test_valid_x_range x x_range;
  let lam := map (fun xi => (1 / xi)%R) x in
  Returned
    (map (fun l =>
            (_g20_bkg_term l (BKG_amp p) (BKG_lambda p) (BKG_b p) (BKG_n p)
             + _g20_drude_term l (FUV_amp p) (FUV_lambda p) (FUV_width p)
             + _g20_drude_term l (NUV_amp p) (NUV_lambda p) (NUV_width p)
             + _g20_drude_term l (SIL1_amp p) (SIL1_lambda p) (SIL1_width p)
             + _g20_drude_term l (SIL2_amp p) (SIL2_lambda p) (SIL2_width p)
             + _g20_drude_term l (FIR_amp p) (FIR_lambda p) (FIR_width p))%R)
         lam).

(** The defaults of the parameters. *)
Definition AbAv : R := (1 / (308 / 100) + 1)%R.

Definition defaults : params :=
  {| BKG_amp := 165 * AbAv; BKG_lambda := 47 / 1000; BKG_b := 90; BKG_n := 2;
     FUV_amp := 14 * AbAv; FUV_lambda := 7 / 100; FUV_width := 1;
     NUV_amp := 45 / 1000 * AbAv; NUV_lambda := 22 / 100; NUV_width := 1;
     SIL1_amp := 2 / 1000 * AbAv; SIL1_lambda := 97 / 10; SIL1_width := 1;
     SIL2_amp := 2 / 1000 * AbAv; SIL2_lambda := 18; SIL2_width := 1;
     FIR_amp := 12 / 1000 * AbAv; FIR_lambda := 25; FIR_width := 1 |}%R.

End G20.

(** ** The curve shapes in floating-point arithmetic *)

(** The machine does not compute the shapes over the reals: every
    operation returns the float next to its exact result.  [rnd] is that
    rounding, and the shapes are written out with one rounding per
    operation, in the order Python evaluates them. *)
Module Fl.

Definition add (rnd : R -> R) (x y : R) : R := rnd (x + y)%R.
Definition sub (rnd : R -> R) (x y : R) : R := rnd (x - y)%R.
Definition mul (rnd : R -> R) (x y : R) : R := rnd (x * y)%R.
Definition div (rnd : R -> R) (x y : R) : R := rnd (x / y)%R.

(** [x ** 2]. *)
Definition square (rnd : R -> R) (x : R) : R := rnd (x * x)%R.

(** [np.power(x, y)]. *)
Definition power (rnd : R -> R) (x y : R) : R := rnd (np_power x y).

(** [Drude1D.evaluate(x, amplitude, x_0, fwhm)]:
    [amplitude * ((fwhm / x_0) ** 2)
     / ((x / x_0 - x_0 / x) ** 2 + (fwhm / x_0) ** 2)]. *)
Definition Drude1D_evaluate (rnd : R -> R) (x amplitude x_0 fwhm : R) : R :=
  div rnd
    (mul rnd amplitude (square rnd (div rnd fwhm x_0)))
    (add rnd (square rnd (sub rnd (div rnd x x_0) (div rnd x_0 x)))
             (square rnd (div rnd fwhm x_0))).

(** [G20._g20_drude_term(waves, amplitude, cen_wave, width)]. *)
Definition _g20_drude_term (rnd : R -> R) (waves amplitude cen_wave width : R)
    : R :=
  div rnd
    (mul rnd amplitude (square rnd (div rnd width cen_wave)))
    (add rnd (square rnd (sub rnd (div rnd waves cen_wave)
                                  (div rnd cen_wave waves)))
             (square rnd (div rnd width cen_wave))).

(** [G20._g20_bkg_term(in_lambda, amplitude, cen_wave, b, n)]:
    [l_norm = in_lambda / cen_wave] and
    [amplitude / (np.power(l_norm, n) + np.power(l_norm, -1 * n) + b)]. *)
Definition _g20_bkg_term (rnd : R -> R) (in_lambda amplitude cen_wave b n : R)
    : R :=
  let l_norm := div rnd in_lambda cen_wave in
  div rnd amplitude
    (add rnd (add rnd (power rnd l_norm n)
                      (power rnd l_norm (mul rnd (-1) n)))
             b).

End Fl.

(** The magnitudes between the smallest and the largest normal float. *)
Definition in_range (tiny huge x : R) : Prop :=
  (tiny <= Rabs x <= huge)%R.

(** What the proofs use of the rounding of a binary floating-point
    format with unit roundoff [u] (for binary64 and rounding to nearest,
    [u] is 2^-53, [tiny] 2^-1022 and [huge] the largest float): a float
    rounds to itself, 0, 1 and 2 are floats, and the rounding of a result
    whose magnitude is in the normal range has a relative error of at most
    [u]. *)
Record rounding (rnd : R -> R) (u tiny huge : R) : Prop := {
  roundoff_nonneg : (0 <= u)%R;
  tiny_pos : (0 < tiny)%R;
  rnd_float : forall x, rnd (rnd x) = rnd x;
  rnd_0 : rnd 0%R = 0%R;
  rnd_1 : rnd 1%R = 1%R;
  rnd_2 : rnd 2%R = 2%R;
  rnd_error : forall x, in_range tiny huge x ->
                        (Rabs (rnd x - x) <= u * Rabs x)%R
}.

(** The two operations of a Drude term that round at its centre, the
    product [amplitude * (width / cen_wave) ** 2] and its quotient by
    [(width / cen_wave) ** 2], neither overflow nor underflow. *)
Definition centre_in_range (rnd : R -> R) (tiny huge : R)
    (amplitude cen_wave width : R) : Prop :=
  let w := Fl.square rnd (Fl.div rnd width cen_wave) in
  in_range tiny huge (amplitude * w)%R /\
  in_range tiny huge (Fl.mul rnd amplitude w / w)%R.

(** ** The ensemble sampler

    [emcee.EnsembleSampler] is a library class.  What the scripts rely on
    is modelled here: a sampler starts with no stored steps, [run_mcmc]
    makes the requested number of moves and stores, for every walker, the
    position and the log-probability after each move, and [reset] drops
    everything stored.  One move of the ensemble (the proposals, the calls
    of [lnprob] and the random numbers they use) is a parameter; [rstate]
    stands for all the state a move reads and writes. *)

Section Emcee.

Context {rstate : Type}.
Variable move : rstate -> list (list Q) -> list (list Q) * list lnp * rstate.

(** [EnsembleSampler(nwalkers, ndim, ...)], and the sampler after
    [reset()]. *)
Definition fresh (nwalkers : nat) : Sampler :=
  {| lnprobability := replicate nwalkers [];
     chain := replicate nwalkers [] |}.

Definition reset (s : Sampler) : Sampler := fresh (length (chain s)).

(** One stored step: every walker gets its new position and
    log-probability appended. *)
Definition record_step (s : Sampler) (pos : list (list Q)) (prob : list lnp)
    : Sampler :=
  {| lnprobability := zip_with (fun row v => row ++ [v]) (lnprobability s) prob;
     chain := zip_with (fun walker x => walker ++ [x]) (chain s) pos |}.

Fixpoint run_steps (n : nat) (s : Sampler) (pos : list (list Q))
    (prob : list lnp) (st : rstate)
    : Sampler * (list (list Q) * list lnp * rstate) :=
  match n with
  | O => (s, (pos, prob, st))
  | S n' =>
      let '(pos', prob', st') := move st pos in
      run_steps n' (record_step s pos' prob') pos' prob' st'
  end.

(** [sampler.run_mcmc(pos0, N, rstate0=...)]: the sampler afterwards and
    the triple [(pos, prob, state)] it returns.  With [N = 0] the library
    has no result to return and the call raises. *)
Definition run_mcmc (s : Sampler) (pos0 : list (list Q)) (N : nat)
    (rstate0 : rstate)
    : Sampler * result (list (list Q) * list lnp * rstate) :=
  match N with
  | O => (s, Raised NameError)
  | S _ =>
      let (s', r) := run_steps N s pos0 [] rstate0 in
      (s', Returned r)
  end.

(** The sampling part of [p92_emcee]: burn in, reset, sample.  Without a
    burn-in ([nburn is None]) the names [pos] and [state] are not bound
    when the full sampling starts. *)
Definition p92_emcee_sample (p : list (list Q)) (nburn : option nat)
    (nsteps : nat) (st0 : rstate) : result Sampler :=
  let sampler := fresh (length p) in
  match nburn with
  | Some burn =>
      let (s1, r1) := run_mcmc sampler p burn st0 in
      '(pos, prob, state) ← r1;
      let s2 := reset s1 in
      let (s3, r2) := run_mcmc s2 pos nsteps state in
      _ ← r2;
      Returned s3
  | None => Raised NameError
  end.

(** The walker positions and the state after [n] moves. *)
Fixpoint walk (n : nat) (pos : list (list Q)) (st : rstate)
    : list (list Q) * rstate :=
  match n with
  | O => (pos, st)
  | S n' =>
      let '(pos', _, st') := move st pos in
      walk n' pos' st'
  end.

End Emcee.

(** ** The percentile summary of [p92_emcee] *)

Section Percentiles.

(** [np.percentile] of a one-dimensional array at one percentage: the
    library's, a parameter here. *)
Variable percentile : list Q -> Q -> Q.

(** [sampler.chain.reshape((-1, ndim))]: the chain has the shape
    [(nwalkers, nsteps, ndim)], so the rows of the result are the stored
    vectors, walker after walker. *)
Definition reshape_samples (chain : list (list (list Q))) : list (list Q) :=
  concat chain.

(** Column [j] of a two-dimensional array. *)
Definition column (j : nat) (samples : list (list Q)) : list Q :=
  map (fun row => nth j row 0%Q) samples.

(** [np.percentile(samples, qs, axis=0)]: one row per percentage, one
    entry per column of [samples]. *)
Definition np_percentile_axis0 (samples : list (list Q)) (qs : list Q)
    (ndim : nat) : list (list Q) :=
  map (fun q => map (fun j => percentile (column j samples) q) (seq 0 ndim)) qs.

(** [zip] over the unpacked rows: the tuples of the entries at the same
    position, as many as the shortest row has. *)
Definition zip_star (rows : list (list Q)) : list (list Q) :=
  match rows with
  | [] => []
  | r :: rest =>
      let n := foldl (fun m r' => Nat.min m (length r')) (length r) rest in
      map (fun j => map (fun r' => nth j r' 0%Q) rows) (seq 0 n)
  end.

(** [lambda v: (v[1], v[2] - v[1], v[1] - v[0])]. *)
Definition summary (v : list Q) : Q * Q * Q :=
  (nth 1 v 0, nth 2 v 0 - nth 1 v 0, nth 1 v 0 - nth 0 v 0)%Q.

(** The triples [per_params] yields, in the order of the fitted
    parameters. *)
Definition per_params (chain : list (list (list Q))) (ndim : nat)
    : list (Q * Q * Q) :=
  let samples := reshape_samples chain in
  map summary (zip_star (np_percentile_axis0 samples [16; 50; 84]%Q ndim)).

End Percentiles.

(** From the start positions to the triples. *)
Definition p92_emcee_per_params {rstate : Type}
    (move : rstate -> list (list Q) -> list (list Q) * list lnp * rstate)
    (percentile : list Q -> Q -> Q)
    (p : list (list Q)) (ndim : nat) (nburn : option nat) (nsteps : nat)
    (st0 : rstate) : result (list (Q * Q * Q)) :=
  s ← p92_emcee_sample move p nburn nsteps st0;
  Returned (per_params percentile (chain s) ndim).

(** The values of parameter [j] over the samples after the burn-in: for
    every walker, its position after each of the [nsteps] moves that
    follow the first [burn] moves. *)
Definition post_burn_in {rstate : Type}
    (move : rstate -> list (list Q) -> list (list Q) * list lnp * rstate)
    (p : list (list Q)) (st0 : rstate) (burn nsteps : nat) (w : nat)
    : list (list Q) :=
  map (fun t => nth w (walk move (burn + S t) p st0).1 []) (seq 0 nsteps).

Definition marginal {rstate : Type}
    (move : rstate -> list (list Q) -> list (list Q) * list lnp * rstate)
    (p : list (list Q)) (st0 : rstate) (burn nsteps : nat) (j : nat) : list Q :=
  map (fun v => nth j v 0%Q)
      (concat (map (post_burn_in move p st0 burn nsteps) (seq 0 (length p)))).

(** ** A sampler move and a percentile for concrete runs *)

(** Every walker moves up by one in every parameter and is given the
    log-probability 0; the move has no state. *)
Definition drift (st : unit) (pos : list (list Q))
    : list (list Q) * list lnp * unit :=
  (map (map (fun v => (v + 1)%Q)) pos, map (fun _ => Fin 0) pos, st).

(** The percentile by linear interpolation between the two nearest ranks
    of the sorted data, numpy's default method in exact arithmetic. *)
Definition linear_percentile (data : list Q) (q : Q) : Q :=
  let sorted := merge_sort (fun a b => Is_true (Qle_bool a b)) data in
  let n := length sorted in
  let h := (q / 100 * inject_Z (Z.of_nat (n - 1)))%Q in
  let lo := Z.to_nat (Qfloor h) in
  let frac := (h - inject_Z (Z.of_nat lo))%Q in
  let a_lo := nth lo sorted 0%Q in
  let a_hi := nth (Nat.min (lo + 1) (n - 1)) sorted 0%Q in
  (a_lo + frac * (a_hi - a_lo))%Q.

(** ** Relations between states of a model *)

(** Two states of a model with the same names, bounds, fixed flags and
    function. *)
Definition same_settings (m1 m2 : Model) : Prop :=
  param_names m1 = param_names m2 /\
  bounds m1 = bounds m2 /\
  fixed m1 = fixed m2 /\
  evaluate m1 = evaluate m2.

(** Two models that differ at most in the values of the parameters
    [names]: same settings, as many values, and the same value at every
    position that is not the position of one of [names]. *)
Definition agree_off (names : list string) (m1 m2 : Model) : Prop :=
  same_settings m1 m2 /\
  length (parameters m1) = length (parameters m2) /\
  forall i,
    (forall n, n ∈ names -> index_of n (param_names m1) <> Some i) ->
    parameters m1 !! i = parameters m2 !! i.

(** On entry, the model's own value of a parameter is inside the
    parameter's bounds: the parameter is one of the model's, it has an
    entry in [bounds], and [param_dict] holds a value for it that does not
    violate them. *)
Definition entry_ok (param_dict : gmap string Q) (model : Model)
    (cname : string) : Prop :=
  known model cname /\
  exists b c, bounds model !! cname = Some b /\
              param_dict !! cname = Some c /\ ~ violates b c.

(** ** The end of [p92_emcee] and what the script does with its result *)

(** [best_params[k]] on what [get_best_fit_params] returned: [None] is not
    subscriptable and raises [TypeError]. *)
Definition subscript (best_params : option (list Q)) (k : nat) : result Q :=
  match best_params with
  | None => Raised TypeError
  | Some best => index best k
  end.

(** [calc_ext_wG20.py]:
    [for k, val in enumerate(per_params):
       exec("model_copy.{}.value = {}".format(fit_param_names[k], val[0]))
       print(fit_param_names[k], best_params[k], val)].
    The arguments of [print] are evaluated in each round, after the
    assignment. *)
Fixpoint set_to_medians (model_copy : Model) (fit_param_names : list string)
    (best_params : option (list Q)) (k : nat) (per_params : list (Q * Q * Q))
    : result Model :=
  match per_params with
  | [] => Returned model_copy
  | val :: rest =>
      cname ← index fit_param_names k;
      m ← set_value model_copy cname val.1.1;
      _ ← index fit_param_names k;
      _ ← subscript best_params k;
      set_to_medians m fit_param_names best_params (S k) rest
  end.

(** [calc_ext.py] and [Figs/old/calc_ext_poly.py], for a best fit that is
    not [None]:
    [for k, val in enumerate(per_params):
       exec("model_copy.{}.value = {}".format(fit_param_names[k],
                                              best_params[k]))]. *)
Fixpoint set_to_best (model_copy : Model) (fit_param_names : list string)
    (best_params : list Q) (k : nat) (per_params : list (Q * Q * Q))
    : result Model :=
  match per_params with
  | [] => Returned model_copy
  | _ :: rest =>
      cname ← index fit_param_names k;
      v ← index best_params k;
      m ← set_value model_copy cname v;
      set_to_best m fit_param_names best_params (S k) rest
  end.

(** The plot of the walker samples in [calc_ext_wG20.py], innermost loop:
    [for i, pname in enumerate(fit_param_names):
       exec("p92_fit_emcee.{}.value = {}".format(pname,
                                                 sampler.chain[k, j, i]))]. *)
Fixpoint replay_step (model : Model) (chain : list (list (list Q)))
    (k j i : nat) (names : list string) : result Model :=
  match names with
  | [] => Returned model
  | pname :: rest =>
      walker ← index chain k;
      step ← index walker j;
      v ← index step i;
      m ← set_value model pname v;
      replay_step m chain k j (S i) rest
  end.

(** [for j in range(nsteps)], from step [j] on, [count] steps to go. *)
Fixpoint replay_steps (model : Model) (chain : list (list (list Q)))
    (names : list string) (k j count : nat) : result Model :=
  match count with
  | O => Returned model
  | S c =>
      m ← replay_step model chain k j 0 names;
      replay_steps m chain names k (S j) c
  end.

(** The whole loop: [nwalkers] is set to 1, so only walker 0 is drawn. *)
Definition replay_walkers (model : Model) (chain : list (list (list Q)))
    (names : list string) (nsteps : nat) : result Model :=
  replay_steps model chain names 0 0 nsteps.

(** [pname[:-2]]: the name without its last two characters. *)
Definition clean_pname (pname : string) : string :=
  String.substring 0 (String.length pname - 2) pname.

(** [[pname[:-2] for pname in fit_param_names]]. *)
Definition clean_pnames (names : list string) : list string :=
  map clean_pname names.

(** [W] walkers with [n] stored steps each, in both arrays. *)
Definition stored (s : Sampler) (W n : nat) : Prop :=
  length (chain s) = W /\ length (lnprobability s) = W /\
  Forall (fun walker => length walker = n) (chain s) /\
  Forall (fun row => length row = n) (lnprobability s).

(** A wavenumber inside [x_range] of [G20]. *)
Definition in_x_range (x : R) : Prop := (1 / 1000 <= x <= 1 / (1 / 1000))%R.

(** Parameters with which every term of [G20] is a non-negative bump:
    amplitudes that are not negative, as their declared minimum of 0 has
    it, a positive background centre, [BKG_b] above -2, and Drude centres
    and widths that are not zero. *)
Definition physical (p : G20.params) : Prop :=
  (0 <= G20.BKG_amp p /\ 0 < G20.BKG_lambda p /\ -2 < G20.BKG_b p /\
   0 <= G20.FUV_amp p /\ 0 <= G20.NUV_amp p /\ 0 <= G20.SIL1_amp p /\
   0 <= G20.SIL2_amp p /\ 0 <= G20.FIR_amp p)%R /\
  (G20.FUV_lambda p <> 0 /\ G20.FUV_width p <> 0 /\
   G20.NUV_lambda p <> 0 /\ G20.NUV_width p <> 0 /\
   G20.SIL1_lambda p <> 0 /\ G20.SIL1_width p <> 0 /\
   G20.SIL2_lambda p <> 0 /\ G20.SIL2_width p <> 0 /\
   G20.FIR_lambda p <> 0 /\ G20.FIR_width p <> 0)%R.

(** ** The first guess of A(V) *)

(** [np.where(mask)]: the indices of the true entries; [i] is the index
    of the head. *)
Fixpoint np_where (mask : list bool) (i : nat) : list nat :=
  match mask with
  | [] => []
  | b :: rest => if b then i :: np_where rest (S i) else np_where rest (S i)
  end.

(** [y[indxs]]: the entries of [y] at the given indices; an index out of
    range raises [IndexError]. *)
Fixpoint np_take (y : list Q) (indxs : list nat) : result (list Q) :=
  match indxs with
  | [] => Returned []
  | i :: rest =>
      v ← index y i;
      r ← np_take y rest;
      Returned (v :: r)
  end.

(** [np.average] of a non-empty array. *)
Definition np_average (a : list Q) : Q :=
  (np_sum a / inject_Z (Z.of_nat (length a)))%Q.

(** [indxs, = np.where(1.0 / x > 5.0)],
    [av_guess = -1.0 * np.average(y[indxs])] and
    [if not np.isfinite(av_guess): av_guess = 1.0].  The average of no
    value is a NaN, the only value here that is not finite.  A zero
    wavenumber is outside the model. *)
Definition av_guess (x y : list Q) : result Q :=
  let indxs := np_where (map (fun xi => Qgtb (1 / xi) 5) x) 0 in
  sel ← np_take y indxs;
  match sel with
  | [] => Returned 1%Q
  | _ => Returned (-1 * np_average sel)%Q
  end.

(** ** The y-range of the inset plot *)

(** Python's [min] and [max] of a sequence; an empty one raises
    [ValueError]. *)
Definition py_min (a : list Q) : result Q :=
  match a with
  | [] => Raised ValueError
  | v :: rest => Returned (foldl (fun m w => if Qltb w m then w else m) v rest)
  end.

Definition py_max (a : list Q) : result Q :=
  match a with
  | [] => Raised ValueError
  | v :: rest => Returned (foldl (fun m w => if Qgtb w m then w else m) v rest)
  end.

(** [indxs, = np.where((x > 1.0 / sp_xlim[1]) & (x < 1.0 / sp_xlim[0]))]
    with [sp_xlim = [2.0, 35.0]], and the two arguments of
    [ax2.set_ylim]:
    [min([min(p92_fit(x)[indxs]), -best_fit_Av]) - 0.1] and
    [max(p92_fit(x)[indxs]) + 0.1]. *)
Definition inset_ylim (p92_fit : Model) (x : list Q) (best_fit_Av : Q)
    : result (Q * Q) :=
  let indxs :=
    np_where (map (fun xi => Qgtb xi (1 / 35) && Qltb xi (1 / 2)) x) 0 in
  fit ← call p92_fit x;
  sel ← np_take fit indxs;
  lo ← py_min sel;
  lo' ← py_min [lo; (- best_fit_Av)%Q];
  fit' ← call p92_fit x;
  sel' ← np_take fit' indxs;
  hi ← py_max sel';
  Returned ((lo' - (1 # 10))%Q, (hi + (1 # 10))%Q).

(** A wavenumber inside the window of the inset, 2 to 35 micron. *)
Definition in_window (xi : Q) : Prop := (1 / 35 < xi /\ xi < 1 / 2)%Q.

(** ** The list of curves of [plot_uv_mir_mext.py] *)

(** What the script reads of an extinction curve loaded with
    [ExtData(filename=...)]: the value [columns["AV"][0]] and, when the
    curve has the key ["IUE"], its points as triples of [npts], [waves]
    and [exts] (in micron). *)
Record ExtCurve := {
  AV : Q;
  IUE : option (list (Q * Q * Q))
}.

(** The characters [str.rstrip()] removes, among the ASCII ones. *)
Definition is_space (c : Ascii.ascii) : bool :=
  let n := Ascii.nat_of_ascii c in
  ((9 <=? n) && (n <=? 13) || (28 <=? n) && (n <=? 32))%nat.

(** The line feed that ends a line of a text file. *)
Definition newline : string := String (Ascii.ascii_of_nat 10) EmptyString.

(** [line.rstrip()]. *)
Fixpoint rstrip (s : string) : string :=
  match s with
  | EmptyString => EmptyString
  | String c rest =>
      match rstrip rest with
      | EmptyString => if is_space c then EmptyString else String c EmptyString
      | r => String c r
      end
  end.

(** [(line.find("#") != 0) & (len(line) > 0)]. *)
Definition is_entry (line : string) : bool :=
  negb (String.prefix "#" line) && (0 <? String.length line)%nat.

(** The normalisation value of a curve: the average of
    [exts / AV + 1.0] over the points with [npts > 0] and a wavelength in
    [[0.25, 0.30]], or 1.0 for a curve without the key ["IUE"].  [None]
    is the NaN that the average of no point gives.  A zero A(V) is
    outside the model. *)
Definition normval (text : ExtCurve) : option Q :=
  match IUE text with
  | Some pts =>
      let sel :=
        omap (fun '(npts, wave, ext) =>
                if Qgtb npts 0 && Qle_bool (25 # 100) wave
                   && Qle_bool wave (30 # 100)
                then Some (ext / AV text + 1)%Q else None) pts in
      match sel with
      | [] => None
      | _ => Some (np_average sel)
      end
  | None => Some 1%Q
  end.

(** [a[indxs]] on an array of any kind. *)
Fixpoint fancy_index {A} (a : list A) (indxs : list nat) : result (list A) :=
  match indxs with
  | [] => Returned []
  | i :: rest =>
      v ← index a i;
      r ← fancy_index a rest;
      Returned (v :: r)
  end.

Section CurveList.

(** Reading a curve from its file is the library's. *)
Variable load : string -> ExtCurve.

(** [np.argsort] is the library's; it returns the indices of its argument
    in some order. *)
Variable argsort : list (option Q) -> list nat.

(** [for line in file_lines], with the lists [extnames] and [normvals] as
    built so far. *)
Fixpoint read_lines (file_lines : list string) (extnames : list string)
    (normvals : list (option Q)) : list string * list (option Q) :=
  match file_lines with
  | [] => (extnames, normvals)
  | line :: rest =>
      if is_entry line then
        let name := rstrip line in
        let text := load ("fits/" +:+ name) in
        read_lines rest (extnames ++ [name]) (normvals ++ [normval text])
      else read_lines rest extnames (normvals ++ [Some 1%Q])
  end.

(** [sindxs = np.flip(np.argsort(normvals))], [normvals[sindxs]] and
    [np.array(extnames)[sindxs]]. *)
Definition sort_curves (file_lines : list string)
    : result (list (option Q) * list string) :=
  let '(extnames, normvals) := read_lines file_lines [] [] in
  let sindxs := reverse (argsort normvals) in
  normvals' ← fancy_index normvals sindxs;
  extnames' ← fancy_index extnames sindxs;
  Returned (normvals', extnames').

End CurveList.

(** A reader for two curves, the second with points in the near-UV. *)
Definition two_curves (name : string) : ExtCurve :=
  {| AV := 1;
     IUE := if String.eqb name "fits/b.fits"
            then Some [(1%Q, 27 # 100, 3%Q)] else None |}.
(** * Properties *)

(** ** Comparisons *)

Lemma Qltb_lt a b : Qltb a b = true <-> (a < b)%Q.
Proof.
  unfold Qltb. rewrite negb_true_iff.
  destruct (Qle_bool b a) eqn:E.
  - apply Qle_bool_iff in E. split; [discriminate | intros H; exfalso; lra].
  - split; [intros _ | reflexivity].
    destruct (Qlt_le_dec a b) as [H | H]; [exact H |].
    apply Qle_bool_iff in H. congruence.
Qed.

Lemma Qltb_ge a b : Qltb a b = false <-> (b <= a)%Q.
Proof.
  split; intros H.
  - destruct (Qlt_le_dec a b) as [L | L]; [| exact L].
    apply Qltb_lt in L. congruence.
  - destruct (Qltb a b) eqn:E; [| reflexivity].
    apply Qltb_lt in E. exfalso; lra.
Qed.

(** ** Indexing a sequence *)

Lemma index_lookup {A} (l : list A) i v :
  l !! i = Some v -> index l i = Returned v.
Proof. intros H. unfold index. now rewrite H. Qed.

(** ** Facts about the parameter store *)

Section ParameterStore.

Lemma index_of_lookup cname names i :
  index_of cname names = Some i -> names !! i = Some cname.
Proof.
  revert i. induction names as [| n rest IH]; intros i; simpl; [discriminate |].
  destruct (String.eqb n cname) eqn:E.
  - apply String.eqb_eq in E. intros [= <-]. now subst.
  - destruct (index_of cname rest) as [j |]; simpl; [| discriminate].
    intros [= <-]. simpl. now apply IH.
Qed.

Lemma index_of_elem cname (names : list string) :
  cname ∈ names -> is_Some (index_of cname names).
Proof.
  induction names as [| n rest IH]; simpl; intros Hin.
  - now apply elem_of_nil in Hin.
  - destruct (String.eqb n cname) eqn:E; [eauto |].
    apply elem_of_cons in Hin as [-> | Hin].
    + rewrite String.eqb_refl in E. discriminate.
    + destruct (IH Hin) as [j ->]. simpl. eauto.
Qed.

Lemma index_of_inj a b names i :
  index_of a names = Some i -> index_of b names = Some i -> a = b.
Proof.
  intros Ha Hb. apply index_of_lookup in Ha, Hb. congruence.
Qed.

Lemma store_param_names model cname v :
  param_names (store model cname v) = param_names model.
Proof. unfold store, set_value. now destruct (index_of _ _). Qed.

Lemma store_bounds model cname v :
  bounds (store model cname v) = bounds model.
Proof. unfold store, set_value. now destruct (index_of _ _). Qed.

Lemma store_aligned model cname v :
  aligned model -> aligned (store model cname v).
Proof.
  unfold aligned, store, set_value.
  destruct (index_of _ _); simpl; [| easy].
  now rewrite length_insert.
Qed.

Lemma get_store_eq model cname v :
  aligned model -> known model cname ->
  get_value (store model cname v) cname = Some v.
Proof.
  intros Hal [i Hi]. unfold get_value, store, set_value.
  rewrite Hi. simpl. rewrite Hi. simpl.
  apply list_lookup_insert_eq.
  rewrite Hal. apply index_of_lookup in Hi.
  now apply lookup_lt_Some in Hi.
Qed.

Lemma get_store_ne model cname v other :
  other <> cname ->
  get_value (store model cname v) other = get_value model other.
Proof.
  intros Hne. unfold get_value, store, set_value.
  destruct (index_of cname (param_names model)) as [i |] eqn:Hi; [| easy].
  simpl. destruct (index_of other (param_names model)) as [j |] eqn:Hj; [| easy].
  simpl. apply list_lookup_insert_ne.
  intros ->. apply Hne. eapply index_of_inj; eauto.
Qed.

Lemma assign_param_names model nvs :
  param_names (assign model nvs) = param_names model.
Proof.
  revert model. induction nvs as [| [n v] rest IH]; intros model; [easy |].
  simpl. rewrite IH. apply store_param_names.
Qed.

Lemma assign_bounds model nvs :
  bounds (assign model nvs) = bounds model.
Proof.
  revert model. induction nvs as [| [n v] rest IH]; intros model; [easy |].
  simpl. rewrite IH. apply store_bounds.
Qed.

Lemma assign_aligned model nvs :
  aligned model -> aligned (assign model nvs).
Proof.
  revert model. induction nvs as [| [n v] rest IH]; intros model H; [easy |].
  simpl. apply IH. now apply store_aligned.
Qed.

(** A name that is not assigned keeps its value. *)
Lemma get_assign_other model nvs other :
  other ∉ nvs.*1 ->
  get_value (assign model nvs) other = get_value model other.
Proof.
  revert model. induction nvs as [| [n v] rest IH]; intros model Hnot; [easy |].
  simpl in *. apply not_elem_of_cons in Hnot as [Hne Hnot].
  rewrite IH by exact Hnot. now apply get_store_ne.
Qed.

(** A name assigned once holds the value it was assigned. *)
Lemma get_assign_member model nvs cname v :
  aligned model -> NoDup nvs.*1 -> (cname, v) ∈ nvs ->
  known model cname ->
  get_value (assign model nvs) cname = Some v.
Proof.
  revert model. induction nvs as [| [n w] rest IH]; intros model Hal Hnd Hin Hk.
  - now apply elem_of_nil in Hin.
  - simpl in *. apply NoDup_cons in Hnd as [Hfresh Hnd].
    apply elem_of_cons in Hin as [[= -> ->] | Hin].
    + rewrite get_assign_other by exact Hfresh. now apply get_store_eq.
    + apply IH; auto using store_aligned.
      unfold known. now rewrite store_param_names.
Qed.

End ParameterStore.

(** ** The loop of [lnprob], step by step *)

Section LnprobLoop.

Lemma violates_checks lo hi v :
  violates (lo, hi) v <-> below v lo || above v hi = true.
Proof.
  unfold violates, below, above, Qgtb. simpl. rewrite orb_true_iff. split.
  - intros [[l [-> H]] | [h [-> H]]]; [left | right]; now apply Qltb_lt.
  - intros [H | H].
    + destruct lo as [l |]; [| discriminate]. left. exists l.
      split; [reflexivity | now apply Qltb_lt].
    + destruct hi as [h |]; [| discriminate]. right. exists h.
      split; [reflexivity | now apply Qltb_lt].
Qed.

Lemma accepts_checks lo hi v :
  ~ violates (lo, hi) v -> below v lo = false /\ above v hi = false.
Proof.
  rewrite violates_checks. intros H.
  destruct (below v lo), (above v hi); simpl in H; auto; now destruct H.
Qed.

Lemma accepts_store model cname w n v :
  accepts model n v -> accepts (store model cname w) n v.
Proof.
  unfold accepts, known. now rewrite store_param_names, store_bounds.
Qed.

Lemma drop_cons_inv {A} (l : list A) k x r :
  drop k l = x :: r -> l !! k = Some x /\ drop (S k) l = r.
Proof.
  intros H. split.
  - replace k with (k + 0)%nat by lia. rewrite <- lookup_drop, H. reflexivity.
  - replace (S k) with (k + 1)%nat by lia. rewrite <- drop_drop, H. reflexivity.
Qed.

(** Accepted parameters are assigned one after the other and the loop
    goes on with the rest. *)
Lemma lnprob_loop_prefix params pre :
  forall vs k model rest tail,
    Forall2 (accepts model) pre vs ->
    drop k params = vs ++ tail ->
    CalcExtWG20.lnprob_loop params k (pre ++ rest) model =
    CalcExtWG20.lnprob_loop params (k + length pre) rest
      (assign model (zip pre vs)).
Proof.
  induction pre as [| n pre IH]; intros vs k model rest tail Hacc Hdrop.
  - simpl. now rewrite Nat.add_0_r.
  - inversion Hacc as [| n' v pre' vs' [Hk [[lo hi] [Hb Hok]]] Hrest]; subst.
    simpl in Hdrop. apply drop_cons_inv in Hdrop as [Hv Hdrop].
    apply accepts_checks in Hok as [Hlo Hhi].
    simpl. rewrite Hb, Hv, Hlo, Hhi.
    destruct Hk as [i Hi].
    assert (Hset : set_value model n v = Returned (store model n v)).
    { unfold store, set_value. now rewrite Hi. }
    rewrite Hset.
    rewrite (IH vs' (S k) (store model n v) rest tail); auto.
    + now replace (S k + length pre)%nat with (k + S (length pre))%nat by lia.
    + eapply Forall2_impl; [exact Hrest |]. intros. now apply accepts_store.
Qed.

(** The first rejected parameter ends the loop. *)
Lemma lnprob_loop_reject params k cname post model v :
  params !! k = Some v -> rejects model cname v ->
  CalcExtWG20.lnprob_loop params k (cname :: post) model =
  (model, Returned (Some NegInf)).
Proof.
  intros Hv [[lo hi] [Hb Hbad]]. simpl. rewrite Hb, Hv.
  apply violates_checks in Hbad.
  destruct (below v lo); [reflexivity |].
  simpl in Hbad. now rewrite Hbad.
Qed.

End LnprobLoop.

(** ** The likelihood value *)

Section Likelihood.

Lemma np_binop_same_length f (a b : list Q) :
  length a = length b -> np_binop f a b = Returned (zip_with f a b).
Proof.
  intros H. unfold np_binop. now rewrite H, Nat.eqb_refl.
Qed.

Lemma foldl_Qplus_acc (l : list Q) :
  forall acc, (foldl Qplus acc l == acc + foldl Qplus 0 l)%Q.
Proof.
  induction l as [| a l IH]; intros acc; simpl.
  - ring.
  - rewrite (IH (acc + a)%Q), (IH (0 + a)%Q). ring.
Qed.

Lemma np_sum_cons a (l : list Q) : (np_sum (a :: l) == a + np_sum l)%Q.
Proof.
  unfold np_sum. simpl. rewrite foldl_Qplus_acc. ring.
Qed.

Lemma np_sum_residuals (m : list Q) :
  forall y uncs, length y = length m -> length uncs = length m ->
    (np_sum (np_square (zip_with Qdiv (zip_with Qminus m y) uncs)) ==
     weighted_sq_residuals m y uncs)%Q.
Proof.
  induction m as [| mi m IH]; intros [| yi y] [| ui uncs] Hy Hu;
    simpl in *; try discriminate; try reflexivity.
  rewrite np_sum_cons.
  rewrite <- (IH y uncs) by lia. reflexivity.
Qed.

(** With one model value, one observation and one uncertainty per data
    point, the likelihood is [-0.5] times the weighted sum of squared
    residuals. *)
Lemma log_likelihood_value model x y uncs m :
  call model x = Returned m ->
  length y = length m -> length uncs = length m ->
  exists q, log_likelihood model x y uncs = Returned (Fin q) /\
            (q == - (1 # 2) * weighted_sq_residuals m y uncs)%Q.
Proof.
  intros Hcall Hy Hu. unfold log_likelihood. rewrite Hcall. simpl.
  rewrite np_binop_same_length by congruence. simpl.
  rewrite np_binop_same_length by (rewrite length_zip_with; lia). simpl.
  eexists. split; [reflexivity |].
  now rewrite np_sum_residuals.
Qed.

End Likelihood.

(** ** [lnprob] of [calc_ext_wG20.py] *)

Section LnprobWG20.

Lemma known_store model cname w n :
  known model n -> known (store model cname w) n.
Proof. unfold known. now rewrite store_param_names. Qed.

Lemma set_value_known model cname v :
  known model cname -> set_value model cname v = Returned (store model cname v).
Proof. intros [i Hi]. unfold store, set_value. now rewrite Hi. Qed.

(** A call in which some proposed value violates its bounds ends in an
    early [return -np.inf], wherever in the list the violation sits. *)
Lemma lnprob_loop_some_reject params names :
  forall k model,
    (forall i n, names !! i = Some n ->
       known model n /\ is_Some (bounds model !! n) /\
       is_Some (params !! (k + i)%nat)) ->
    (exists i n v, names !! i = Some n /\ params !! (k + i)%nat = Some v /\
       rejects model n v) ->
    (CalcExtWG20.lnprob_loop params k names model).2 = Returned (Some NegInf).
Proof.
  induction names as [| cname rest IH]; intros k model Hwf (i & n & v & Hn & Hv & Hrej).
  - now rewrite lookup_nil in Hn.
  - destruct (Hwf 0%nat cname eq_refl) as (Hk & [[lo hi] Hb] & [v0 Hv0]).
    rewrite Nat.add_0_r in Hv0. simpl. rewrite Hb, Hv0.
    destruct (below v0 lo) eqn:Hlo; [reflexivity |].
    destruct (above v0 hi) eqn:Hhi; [reflexivity |].
    rewrite (set_value_known _ _ _ Hk).
    apply IH.
    + intros j m Hm. destruct (Hwf (S j) m Hm) as (Hk' & Hb' & Hv').
      rewrite store_bounds. replace (S k + j)%nat with (k + S j)%nat by lia.
      auto using known_store.
    + destruct i as [| i].
      * exfalso. simpl in Hn. injection Hn as <-.
        rewrite Nat.add_0_r in Hv. destruct Hrej as (b & Hb2 & Hbad).
        assert (b = (lo, hi)) as -> by congruence.
        assert (v = v0) as -> by congruence.
        apply violates_checks in Hbad. rewrite Hlo, Hhi in Hbad. discriminate.
      * exists i, n, v. simpl in Hn.
        replace (S k + i)%nat with (k + S i)%nat by lia.
        repeat split; auto. destruct Hrej as (b & Hb2 & Hbad).
        exists b. now rewrite store_bounds.
Qed.

(** [calc_ext_wG20.py]: a proposal with a component outside its bounds is
    given the likelihood [-np.inf]. *)
Lemma wg20_lnprob_out_of_bounds params x y uncs model names :
  length params = length names ->
  (forall n, n ∈ names -> known model n /\ is_Some (bounds model !! n)) ->
  (exists i n v, names !! i = Some n /\ params !! i = Some v /\
     rejects model n v) ->
  (CalcExtWG20.lnprob params x y uncs model names).2 = Returned NegInf.
Proof.
  intros Hlen Hwf Hex.
  pose proof (lnprob_loop_some_reject params names 0%nat model) as H.
  unfold CalcExtWG20.lnprob.
  destruct (CalcExtWG20.lnprob_loop params 0 names model) as [m' out].
  simpl in H. rewrite H; [reflexivity | |exact Hex].
  intros i n Hn. destruct (Hwf n) as [Hk Hb].
  { eapply list_elem_of_lookup_2; eauto. }
  repeat split; auto. apply lookup_lt_is_Some. rewrite Hlen.
  now apply lookup_lt_Some in Hn.
Qed.

(** [calc_ext_wG20.py]: a proposal inside all its bounds is written into
    the model and given the likelihood of the updated model. *)
Lemma wg20_lnprob_in_bounds params x y uncs model names :
  Forall2 (accepts model) names params ->
  CalcExtWG20.lnprob params x y uncs model names =
  (assign model (zip names params),
   log_likelihood (assign model (zip names params)) x y uncs).
Proof.
  intros Hacc. unfold CalcExtWG20.lnprob.
  pose proof (lnprob_loop_prefix params names params 0%nat model [] []) as H.
  rewrite !app_nil_r in H. rewrite H; [reflexivity | exact Hacc | reflexivity].
Qed.

(** [calc_ext_wG20.py]: for a proposal inside all its bounds and data
    arrays of the length of the model's output, the likelihood is [-0.5]
    times the weighted sum of squared residuals of the updated model. *)
Lemma wg20_lnprob_value params x y uncs model names m :
  Forall2 (accepts model) names params ->
  call (assign model (zip names params)) x = Returned m ->
  length y = length m -> length uncs = length m ->
  exists q,
    (CalcExtWG20.lnprob params x y uncs model names).2 = Returned (Fin q) /\
    (q == - (1 # 2) * weighted_sq_residuals m y uncs)%Q.
Proof.
  intros Hacc Hcall Hy Hu. rewrite (wg20_lnprob_in_bounds _ _ _ _ _ _ Hacc).
  now apply log_likelihood_value.
Qed.

End LnprobWG20.

(** ** Checking proposals on concrete inputs *)

Section Checks.

Lemma acceptsb_accepts model cname v :
  acceptsb model cname v = true -> accepts model cname v.
Proof.
  unfold acceptsb, accepts, known.
  destruct (index_of cname (param_names model)) as [i |]; [| discriminate].
  destruct (bounds model !! cname) as [[lo hi] |]; [| discriminate].
  intros H. split; [eauto |]. exists (lo, hi). split; [reflexivity |].
  rewrite violates_checks. unfold violatesb in H. simpl in H.
  destruct (below v lo || above v hi); [discriminate | discriminate].
Qed.

Lemma rejectsb_rejects model cname v :
  rejectsb model cname v = true -> rejects model cname v.
Proof.
  unfold rejectsb, rejects.
  destruct (bounds model !! cname) as [[lo hi] |]; [| discriminate].
  intros H. exists (lo, hi). split; [reflexivity |].
  now apply violates_checks.
Qed.

End Checks.

(** ** Rejection leaves the model changed *)

(** C9.  [lnprob] of [calc_ext_wG20.py] is not atomic on rejection.  When
    the parameter at position [j] of the fit-parameter list is the first
    to violate its bounds, the call returns [-np.inf] and leaves the model
    object with the proposed values written into the parameters at
    positions [0 .. j-1]; every other parameter keeps its value. *)
Theorem lnprob_rejection_mutates_model params x y uncs model names j cname v :
  aligned model ->
  NoDup (take j names) ->
  Forall2 (accepts model) (take j names) (take j params) ->
  names !! j = Some cname ->
  params !! j = Some v ->
  rejects model cname v ->
  exists model',
    CalcExtWG20.lnprob params x y uncs model names = (model', Returned NegInf) /\
    (forall i n w, (i < j)%nat -> names !! i = Some n -> params !! i = Some w ->
       get_value model' n = Some w) /\
    (forall n, n ∉ take j names -> get_value model' n = get_value model n).
Proof.
  intros Hal Hnd Hacc Hn Hv Hrej.
  set (nvs := zip (take j names) (take j params)).
  assert (Hfst : nvs.*1 = take j names).
  { apply fst_zip. now rewrite (Forall2_length _ _ _ Hacc). }
  assert (Hj : length (take j names) = j).
  { apply length_take_le. apply lookup_lt_Some in Hn. lia. }
  exists (assign model nvs). split; [| split].
  - unfold CalcExtWG20.lnprob.
    rewrite <- (take_drop j names) at 1.
    rewrite (lnprob_loop_prefix params (take j names) (take j params) 0%nat
               model (drop j names) (drop j params) Hacc)
      by now rewrite take_drop.
    rewrite Hj. simpl. rewrite (drop_S _ _ _ Hn).
    rewrite (lnprob_loop_reject params j cname _ (assign model nvs) v Hv);
      [reflexivity |].
    destruct Hrej as (b & Hb & Hbad). exists b. now rewrite assign_bounds.
  - intros i n w Hi Hni Hwi.
    apply get_assign_member; auto.
    + now rewrite Hfst.
    + apply (list_elem_of_lookup_2 _ i). apply lookup_zip_Some.
      now rewrite !lookup_take_lt.
    + eapply (Forall2_lookup_lr _ _ _ i n w) in Hacc as [Hk _]; auto;
        now rewrite lookup_take_lt.
  - intros n Hnot. apply get_assign_other. now rewrite Hfst.
Qed.

(** C9 at a concrete call: the second of two proposed values is out of
    bounds, the first has been written into the model. *)
Lemma lnprob_rejection_mutates_model_witness :
  exists model',
    CalcExtWG20.lnprob [3; 20]%Q [1]%Q [1]%Q [1]%Q (line_model 1 2) ["a"; "b"] =
      (model', Returned NegInf) /\
    (forall i n w, (i < 1)%nat -> ["a"; "b"] !! i = Some n ->
       [3; 20]%Q !! i = Some w -> get_value model' n = Some w) /\
    (forall n, n ∉ take 1 ["a"; "b"] ->
       get_value model' n = get_value (line_model 1 2) n).
Proof.
  apply (lnprob_rejection_mutates_model [3; 20]%Q [1]%Q [1]%Q [1]%Q
           (line_model 1 2) ["a"; "b"] 1%nat "b" 20%Q).
  - reflexivity.
  - simpl. apply NoDup_singleton.
  - simpl. constructor; [| constructor].
    apply acceptsb_accepts. vm_compute. reflexivity.
  - reflexivity.
  - reflexivity.
  - apply rejectsb_rejects. vm_compute. reflexivity.
Defined.

(** ** [lnprob] of [calc_ext.py] on concrete proposals *)

(** C1.  [lnprob] of [calc_ext.py] does not return [-np.inf] for a
    proposal outside its bounds: the model holds [a = 1] inside [[0, 10]],
    the proposal [a = 20] is above the upper bound, and the call writes it
    into the model and returns a finite likelihood. *)
Theorem calc_ext_lnprob_takes_out_of_bounds :
  rejects (line_model 1 2) "a" 20 /\
  CalcExt.lnprob [20; 2]%Q [1]%Q [21]%Q [1]%Q (line_model 1 2) ["a"; "b"] =
    (line_model 20 2, Returned (Fin (-1 # 2))).
Proof.
  split.
  - apply rejectsb_rejects. vm_compute. reflexivity.
  - vm_compute. reflexivity.
Qed.

(** The same proposal is refused by [lnprob] of [calc_ext_wG20.py]. *)
Example wg20_lnprob_refuses_out_of_bounds :
  (CalcExtWG20.lnprob [20; 2]%Q [1]%Q [21]%Q [1]%Q (line_model 1 2) ["a"; "b"]).2 =
    Returned NegInf.
Proof. vm_compute. reflexivity. Qed.

(** C2.  [lnprob] of [calc_ext.py] does not return the weighted sum of
    squared residuals for every proposal inside its bounds: on the model
    left by the call above, which holds [a = 20], the proposal
    [a = 5, b = 2] is inside all bounds and the call returns [-np.inf]. *)
Theorem calc_ext_lnprob_refuses_in_bounds :
  Forall2 (accepts (line_model 20 2)) ["a"; "b"] [5; 2]%Q /\
  CalcExt.lnprob [5; 2]%Q [1]%Q [21]%Q [1]%Q (line_model 20 2) ["a"; "b"] =
    (line_model 20 2, Returned NegInf).
Proof.
  split.
  - constructor; [| constructor; [| constructor]];
      apply acceptsb_accepts; vm_compute; reflexivity.
  - vm_compute. reflexivity.
Qed.

(** The same proposal is given its likelihood by [lnprob] of
    [calc_ext_wG20.py]. *)
Example wg20_lnprob_takes_in_bounds :
  (CalcExtWG20.lnprob [5; 2]%Q [1]%Q [6]%Q [1]%Q (line_model 20 2) ["a"; "b"]).2 =
    Returned (Fin (-1 # 2)).
Proof. vm_compute. reflexivity. Qed.

(** ** The order on log-probabilities *)

Section LnpOrder.

Lemma Qeq_bool_false (a b : Q) : Qeq_bool a b = false <-> ~ (a == b)%Q.
Proof.
  split.
  - intros H E. apply Qeq_bool_iff in E. congruence.
  - intros H. destruct (Qeq_bool a b) eqn:E; [| reflexivity].
    apply Qeq_bool_iff in E. contradiction.
Qed.

Lemma lnp_ltb_true a b : lnp_ltb a b = true <-> lnp_ltP a b.
Proof.
  destruct a, b; simpl; try (split; [discriminate | tauto]); try tauto.
  apply Qltb_lt.
Qed.

Lemma lnp_ltb_false a b : lnp_ltb a b = false <-> lnp_leP b a.
Proof.
  destruct a, b; simpl; try tauto; try (split; [discriminate | tauto]).
  apply Qltb_ge.
Qed.

Lemma lnp_eqb_true a b : lnp_eqb a b = true <-> lnp_eqP a b.
Proof.
  destruct a, b; simpl; try tauto; try (split; [discriminate | tauto]).
  apply Qeq_bool_iff.
Qed.

Lemma lnp_eqb_false a b : lnp_eqb a b = false <-> ~ lnp_eqP a b.
Proof.
  destruct a, b; simpl; try tauto; try (split; [tauto | discriminate]);
    try (split; [discriminate | tauto]).
  apply Qeq_bool_false.
Qed.

End LnpOrder.

(** Turns every comparison of log-probabilities into the proposition it
    decides, splits the values into [-inf] and finite ones, and leaves the
    rest to linear arithmetic. *)
Ltac lnp_order :=
  unfold lnp_lt, lnp_le, lnp_eq, lnp_gtb in *;
  repeat match goal with
    | H : lnp_ltb _ _ = true |- _ => apply lnp_ltb_true in H
    | H : lnp_ltb _ _ = false |- _ => apply lnp_ltb_false in H
    | H : lnp_eqb _ _ = true |- _ => apply lnp_eqb_true in H
    | H : lnp_eqb _ _ = false |- _ => apply lnp_eqb_false in H
    | |- lnp_ltb _ _ = true => apply lnp_ltb_true
    | |- lnp_ltb _ _ = false => apply lnp_ltb_false
    | |- lnp_eqb _ _ = true => apply lnp_eqb_true
    | |- lnp_eqb _ _ = false => apply lnp_eqb_false
    end;
  repeat match goal with
    | x : lnp |- _ => destruct x
    end;
  simpl in *; try tauto; try lra.

Section NumpyReductions.

Lemma lnp_eqb_refl a : lnp_eqb a a = true.
Proof. lnp_order. Qed.

Lemma lnp_le_trans a b c : lnp_le a b -> lnp_le b c -> lnp_le a c.
Proof. intros. lnp_order. Qed.

Lemma lnp_lt_le_trans a b c : lnp_lt a b -> lnp_le b c -> lnp_lt a c.
Proof. intros. lnp_order. Qed.

Lemma lnp_le_lt_trans a b c : lnp_le a b -> lnp_lt b c -> lnp_lt a c.
Proof. intros. lnp_order. Qed.

(** The running maximum of [np_max]: it is the start value or an element,
    and nothing seen is above it. *)
Lemma running_max_spec (rest : list lnp) :
  forall v,
    let t := foldl (fun m w => if lnp_ltb m w then w else m) v rest in
    (t = v \/ t ∈ rest) /\ lnp_le v t /\ (forall w, w ∈ rest -> lnp_le w t).
Proof.
  induction rest as [| a rest IH]; intros v; simpl.
  - repeat split; [now left | lnp_order |].
    intros w Hw. now apply elem_of_nil in Hw.
  - destruct (IH (if lnp_ltb v a then a else v)) as (Hmem & Hle & Hall).
    repeat split.
    + destruct Hmem as [-> | Hin].
      * destruct (lnp_ltb v a); [right; left | now left].
      * right. now right.
    + eapply lnp_le_trans; [| exact Hle].
      destruct (lnp_ltb v a) eqn:E; lnp_order.
    + intros w Hw. apply elem_of_cons in Hw as [-> | Hw]; [| now apply Hall].
      eapply lnp_le_trans; [| exact Hle].
      destruct (lnp_ltb v a) eqn:E; lnp_order.
Qed.

(** [np.max] of a non-empty row is one of its entries and no entry is
    above it. *)
Lemma np_max_spec (row : list lnp) :
  row <> [] ->
  exists t, np_max row = Returned t /\ t ∈ row /\
            (forall w, w ∈ row -> lnp_le w t).
Proof.
  destruct row as [| v rest]; [congruence | intros _].
  destruct (running_max_spec rest v) as (Hmem & Hle & Hall).
  eexists. split; [reflexivity |]. split.
  - destruct Hmem as [-> | Hin]; [left | now right].
  - intros w Hw. apply elem_of_cons in Hw as [-> | Hw]; auto.
Qed.

(** The first index [np.where] reports is the first position that holds
    the value. *)
Lemma np_where_eq_first (row : list lnp) :
  forall i off v w,
    row !! i = Some w -> lnp_eqb w v = true ->
    (forall i' w', (i' < i)%nat -> row !! i' = Some w' -> lnp_eqb w' v = false) ->
    np_where_eq row v off !! 0%nat = Some (off + i)%nat.
Proof.
  induction row as [| a row IH]; intros i off v w Hi Heq Hfirst.
  - now rewrite lookup_nil in Hi.
  - destruct i as [| i]; simpl in *.
    + injection Hi as ->. rewrite Heq. simpl.
      now replace (off + 0)%nat with off by lia.
    + rewrite (Hfirst 0%nat a) by (reflexivity || lia).
      replace (off + S i)%nat with (S off + i)%nat by lia.
      apply (IH i (S off) v w); auto.
      intros i' w' Hlt Hw'. apply (Hfirst (S i') w'); [lia | exact Hw'].
Qed.

End NumpyReductions.

(** ** The loop of [get_best_fit_params] *)

Section BestFitLoop.

Variable sampler : Sampler.

Lemma np_where_eq_head (row : list lnp) :
  forall off v,
    (exists w, w ∈ row /\ lnp_eqb w v = true) ->
    exists i, (i < length row)%nat /\
              np_where_eq row v off !! 0%nat = Some (off + i)%nat.
Proof.
  induction row as [| a row IH]; intros off v (w & Hin & Heq).
  - now apply elem_of_nil in Hin.
  - simpl. destruct (lnp_eqb a v) eqn:E.
    + exists 0%nat. split; [lia |]. simpl. now rewrite Nat.add_0_r.
    + apply elem_of_cons in Hin as [-> | Hin]; [congruence |].
      destruct (IH (S off) v) as (i & Hlt & Hi); [eauto |].
      exists (S i). split; [lia |].
      now replace (off + S i)%nat with (S off + i)%nat by lia.
Qed.

(** Once the running maximum has reached [M], rows that stay at or below
    [M] change nothing. *)
Lemma best_fit_loop_settled M (rows : list (list lnp)) :
  forall k mx best,
    Forall (fun row => row <> [] /\ forall w, w ∈ row -> lnp_le w M) rows ->
    lnp_le M mx ->
    best_fit_loop sampler rows k mx best = Returned best.
Proof.
  induction rows as [| row rows IH]; intros k mx best Hrows Hmx; [reflexivity |].
  apply Forall_cons in Hrows as [[Hne Hle] Hrows].
  destruct (np_max_spec row Hne) as (t & Ht & Hin & _).
  simpl. rewrite Ht. simpl.
  assert (lnp_gtb t mx = false) as ->.
  { specialize (Hle t Hin). clear - Hle Hmx. lnp_order. }
  now apply IH.
Qed.

(** Rows that stay strictly below [M] keep the running maximum strictly
    below [M], whatever they do to the best fit. *)
Lemma best_fit_loop_rising M (pre : list (list lnp)) :
  forall k mx best rest,
    (forall j row, pre !! j = Some row ->
       row <> [] /\ (forall w, w ∈ row -> lnp_lt w M) /\
       exists walker, chain sampler !! (k + j)%nat = Some walker /\
                      length row = length walker) ->
    lnp_lt mx M ->
    exists mx' best',
      lnp_lt mx' M /\
      best_fit_loop sampler (pre ++ rest) k mx best =
      best_fit_loop sampler rest (k + length pre) mx' best'.
Proof.
  induction pre as [| row pre IH]; intros k mx best rest Hpre Hmx.
  - exists mx, best. simpl. now rewrite Nat.add_0_r.
  - destruct (Hpre 0%nat row eq_refl) as (Hne & Hlt & walker & Hw & Hlen).
    rewrite Nat.add_0_r in Hw.
    destruct (np_max_spec row Hne) as (t & Ht & Hin & _).
    assert (Hnext : forall j row', pre !! j = Some row' ->
              row' <> [] /\ (forall w, w ∈ row' -> lnp_lt w M) /\
              exists walker', chain sampler !! (S k + j)%nat = Some walker' /\
                              length row' = length walker').
    { intros j row' Hj. replace (S k + j)%nat with (k + S j)%nat by lia.
      now apply (Hpre (S j) row'). }
    simpl. rewrite Ht. simpl.
    replace (k + S (length pre))%nat with (S k + length pre)%nat by lia.
    destruct (lnp_gtb t mx) eqn:Hgt.
    + destruct (np_where_eq_head row 0%nat t) as (i & Hi & Hidx).
      { exists t. split; [exact Hin | apply lnp_eqb_refl]. }
      destruct (lookup_lt_is_Some_2 walker i) as [best' Hb]; [lia |].
      rewrite (index_lookup _ _ _ Hidx). simpl.
      rewrite (index_lookup _ _ _ Hw). simpl.
      rewrite (index_lookup _ _ _ Hb). simpl.
      apply IH; auto.
    + apply IH; auto.
Qed.

(** The row that holds the maximum [M] first, met with a running maximum
    below [M], sets the best fit to the vector stored at the first
    position of [M] in the row. *)
Lemma best_fit_loop_hit M (row : list lnp) rest k i mx best walker v :
  row !! i = Some M ->
  (forall w, w ∈ row -> lnp_le w M) ->
  (forall i' w, (i' < i)%nat -> row !! i' = Some w -> lnp_lt w M) ->
  lnp_lt mx M ->
  chain sampler !! k = Some walker -> walker !! i = Some v ->
  exists t, lnp_le M t /\
    best_fit_loop sampler (row :: rest) k mx best =
    best_fit_loop sampler rest (S k) t (Some v).
Proof.
  intros Hi Hle Hfirst Hmx Hw Hv.
  assert (Hne : row <> []) by (intros ->; now rewrite lookup_nil in Hi).
  destruct (np_max_spec row Hne) as (t & Ht & Hin & Hall).
  assert (HMt : lnp_le M t).
  { apply Hall. now apply (list_elem_of_lookup_2 _ i). }
  assert (HtM : lnp_le t M) by now apply Hle.
  exists t. split; [exact HMt |].
  simpl. rewrite Ht. simpl.
  assert (lnp_gtb t mx = true) as ->.
  { clear - HMt Hmx. lnp_order. }
  rewrite (index_lookup _ 0%nat i).
  - simpl. rewrite (index_lookup _ _ _ Hw). simpl.
    now rewrite (index_lookup _ _ _ Hv).
  - apply (np_where_eq_first row i 0%nat t M Hi).
    + clear - HMt HtM. lnp_order.
    + intros i' w' Hlt Hw'. specialize (Hfirst i' w' Hlt Hw').
      clear - Hfirst HMt. lnp_order.
Qed.

End BestFitLoop.

(** ** [get_best_fit_params] *)

(** C6, as the code has it.  When the largest stored log-probability [M]
    is above the initial [-1e32], [get_best_fit_params] returns the chain
    entry at the first (walker, step) position that holds [M]: no earlier
    walker reaches [M] and no earlier step of that walker does. *)
Theorem get_best_fit_params_first_max sampler k i M row walker v :
  same_shape sampler ->
  has_steps sampler ->
  lnprobability sampler !! k = Some row -> row !! i = Some M ->
  chain sampler !! k = Some walker -> walker !! i = Some v ->
  lnp_lt max_lnp_init M ->
  (forall k' row' w, lnprobability sampler !! k' = Some row' -> w ∈ row' ->
     lnp_le w M) ->
  (forall k' row' w, (k' < k)%nat -> lnprobability sampler !! k' = Some row' ->
     w ∈ row' -> lnp_lt w M) ->
  (forall i' w, (i' < i)%nat -> row !! i' = Some w -> lnp_lt w M) ->
  get_best_fit_params sampler = Returned (Some v).
Proof.
  intros Hshape Hsteps Hrow HM Hwalker Hv Hinit Hmax Hbefore Hfirst.
  unfold get_best_fit_params.
  rewrite <- (take_drop_middle _ _ _ Hrow).
  assert (Hk : length (take k (lnprobability sampler)) = k).
  { apply length_take_le. apply lookup_lt_Some in Hrow. lia. }
  destruct (best_fit_loop_rising sampler M (take k (lnprobability sampler))
              0%nat max_lnp_init None
              (row :: drop (S k) (lnprobability sampler)))
    as (mx & best & Hmx & ->); [| exact Hinit |].
  { intros j row' Hj. apply lookup_take_Some in Hj as [Hj Hlt].
    split; [| split].
    - unfold has_steps in Hsteps. rewrite Forall_lookup in Hsteps. eauto.
    - intros w Hw. eapply Hbefore; eauto.
    - simpl. eapply Forall2_lookup_l in Hshape as (walker' & ? & ?); eauto. }
  rewrite Hk. simpl Nat.add.
  destruct (best_fit_loop_hit sampler M row (drop (S k) (lnprobability sampler))
              k i mx best walker v) as (t & Ht & ->); auto.
  { intros w Hw. eapply Hmax; eauto. }
  apply (best_fit_loop_settled sampler M); [| exact Ht].
  apply Forall_lookup. intros j row' Hj. rewrite lookup_drop in Hj. split.
  - unfold has_steps in Hsteps. rewrite Forall_lookup in Hsteps. eauto.
  - intros w Hw. eapply Hmax; eauto.
Qed.

(** C6 at a concrete sampler: the maximum is held twice, the entry of the
    first walker is returned. *)
Lemma get_best_fit_params_first_max_witness :
  get_best_fit_params two_walkers = Returned (Some [10%Q]).
Proof.
  apply (get_best_fit_params_first_max two_walkers 0%nat 1%nat (Fin (-1))
           [Fin (-3); Fin (-1)] [[30]; [10]]%Q [10%Q]).
  - repeat constructor.
  - repeat constructor; discriminate.
  - reflexivity.
  - reflexivity.
  - reflexivity.
  - reflexivity.
  - vm_compute. reflexivity.
  - intros [| [| k']] row' w Hrow' Hw; simpl in Hrow'; try discriminate;
      injection Hrow' as <-;
      repeat (apply elem_of_cons in Hw as [-> | Hw]; [vm_compute; reflexivity |]);
      now apply elem_of_nil in Hw.
  - intros k' row' w Hlt. lia.
  - intros [| i'] w Hlt Hw; [| lia]. injection Hw as <-. vm_compute. reflexivity.
Defined.

(** C6 as stated fails below the initial [-1e32]: the one stored
    log-probability is the maximum, it is [-np.inf], and the call returns
    [None] instead of the chain entry at its position. *)
Lemma get_best_fit_params_max_not_returned :
  lnprobability all_rejected !! 0%nat = Some [NegInf] /\
  (forall k row w, lnprobability all_rejected !! k = Some row -> w ∈ row ->
     lnp_le w NegInf) /\
  chain all_rejected !! 0%nat = Some [[1%Q]] /\
  get_best_fit_params all_rejected = Returned None /\
  get_best_fit_params all_rejected <> Returned (Some [1%Q]).
Proof.
  split; [reflexivity |]. split; [| split; [reflexivity |]].
  - intros [| k] row w Hrow Hw; simpl in Hrow; [| discriminate].
    injection Hrow as <-. apply elem_of_cons in Hw as [-> | Hw]; [reflexivity |].
    now apply elem_of_nil in Hw.
  - split; [vm_compute; reflexivity | vm_compute; discriminate].
Qed.

(** C10.  When every stored log-probability of every walker is at most
    [-1e32], [get_best_fit_params] returns no parameter vector: it returns
    [None] when every walker has a stored step (and [np.max] raises on a
    walker that has none). *)
Theorem get_best_fit_params_none sampler :
  (forall k row w, lnprobability sampler !! k = Some row -> w ∈ row ->
     lnp_le w max_lnp_init) ->
  (has_steps sampler -> get_best_fit_params sampler = Returned None) /\
  (forall v, get_best_fit_params sampler <> Returned (Some v)).
Proof.
  intros Hall.
  assert (Hnone : forall M rows k,
            (forall row w, row ∈ rows -> w ∈ row -> lnp_le w M) ->
            forall v, best_fit_loop sampler rows k M None <> Returned (Some v)).
  { intros M. induction rows as [| row rows IH]; intros k Hrows v; [discriminate |].
    destruct row as [| a row]; [discriminate |].
    destruct (np_max_spec (a :: row)) as (t & Ht & Hin & _); [discriminate |].
    cbn [best_fit_loop]. rewrite Ht. simpl.
    assert (lnp_gtb t M = false) as ->.
    { assert (lnp_le t M) as H by (eapply Hrows; [left | exact Hin]).
      exact H. }
    apply IH. intros row' w Hrow'. apply Hrows. now right. }
  split.
  - intros Hsteps. unfold get_best_fit_params.
    apply (best_fit_loop_settled sampler max_lnp_init).
    + apply Forall_lookup. intros k row Hrow. split.
      * unfold has_steps in Hsteps. rewrite Forall_lookup in Hsteps. eauto.
      * intros w Hw. eapply Hall; eauto.
    + vm_compute. reflexivity.
  - apply Hnone. intros row w Hrow Hw.
    apply list_elem_of_lookup in Hrow as [k Hk]. eapply Hall; eauto.
Qed.

(** C10 at a concrete sampler: every sample was rejected. *)
Lemma get_best_fit_params_none_witness :
  (has_steps all_rejected -> get_best_fit_params all_rejected = Returned None) /\
  (forall v, get_best_fit_params all_rejected <> Returned (Some v)).
Proof.
  apply (get_best_fit_params_none all_rejected).
  intros [| k] row w Hrow Hw; simpl in Hrow; [| discriminate].
  injection Hrow as <-. apply elem_of_cons in Hw as [-> | Hw].
  - vm_compute. reflexivity.
  - now apply elem_of_nil in Hw.
Defined.

(** ** Walker set-up *)

Section WalkerSetup.

Lemma within_clamp b c : ordered b -> within b (clamp b c).
Proof.
  destruct b as [[lo |] [hi |]]; unfold ordered, within, clamp, below, above, Qgtb;
    simpl; intros Hord.
  - specialize (Hord lo hi eq_refl eq_refl).
    destruct (Qltb c lo) eqn:E1.
    + destruct (Qltb hi lo) eqn:E2;
        [apply Qltb_lt in E2; lra |].
      split; intros ? [= <-]; lra.
    + apply Qltb_ge in E1.
      destruct (Qltb hi c) eqn:E2; split; intros ? [= <-]; try lra.
      now apply Qltb_ge in E2.
  - destruct (Qltb c lo) eqn:E1; split; intros ? [=]; subst; try lra.
    now apply Qltb_ge in E1.
  - destruct (Qltb hi c) eqn:E1; split; intros ? [=]; subst; try lra.
    now apply Qltb_ge in E1.
  - split; intros ? [=].
Qed.

(** The two checks replace component [k] by its clamped value and touch
    nothing else. *)
Lemma clamp_at_spec b k (cp : list Q) c :
  cp !! k = Some c ->
  clamp_at b k cp = Returned (<[k := clamp b c]> cp).
Proof.
  intros Hc. assert (Hk : (k < length cp)%nat) by now apply lookup_lt_Some in Hc.
  assert (Hsame : forall c1, <[k := c1]> cp !! k = Some c1)
    by (intros; now apply list_lookup_insert_eq).
  destruct b as [[l |] [h |]]; unfold clamp_at, clamp, below, above; simpl.
  - rewrite (index_lookup _ _ _ Hc). simpl.
    destruct (Qltb c l); simpl.
    + rewrite (index_lookup _ _ _ (Hsame l)). simpl.
      destruct (Qgtb l h); [now rewrite list_insert_insert_eq | reflexivity].
    + rewrite (index_lookup _ _ _ Hc). simpl.
      destruct (Qgtb c h); [reflexivity | now rewrite list_insert_id].
  - rewrite (index_lookup _ _ _ Hc). simpl.
    destruct (Qltb c l); [reflexivity | now rewrite list_insert_id].
  - rewrite (index_lookup _ _ _ Hc). simpl.
    destruct (Qgtb c h); [reflexivity | now rewrite list_insert_id].
  - now rewrite list_insert_id.
Qed.

(** One walker: every fitted component ends as its clamped value. *)
Lemma clamp_walker_spec model (names : list string) :
  forall k (cp : list Q),
    (forall n, n ∈ names -> is_Some (bounds model !! n)) ->
    (k + length names <= length cp)%nat ->
    exists cp',
      clamp_walker model names k cp = Returned cp' /\
      length cp' = length cp /\
      (forall j, (j < k)%nat -> cp' !! j = cp !! j) /\
      (forall j cname b, names !! j = Some cname ->
         bounds model !! cname = Some b ->
         exists c, cp !! (k + j)%nat = Some c /\
                   cp' !! (k + j)%nat = Some (clamp b c)).
Proof.
  induction names as [| cname names IH]; intros k cp Hb Hlen.
  - exists cp. repeat split; auto. intros j n b Hj. now rewrite lookup_nil in Hj.
  - simpl in Hlen.
    destruct (Hb cname) as [b Hbn]; [left |].
    destruct (lookup_lt_is_Some_2 cp k) as [c Hc]; [lia |].
    destruct (IH (S k) (<[k := clamp b c]> cp)) as (cp' & Hrun & Hl & Hlow & Hup).
    { intros n Hn. apply Hb. now right. }
    { rewrite length_insert. lia. }
    exists cp'. split; [| split; [| split]].
    + simpl. unfold getitem. rewrite Hbn. simpl.
      rewrite (clamp_at_spec b k cp c Hc). simpl. exact Hrun.
    + now rewrite Hl, length_insert.
    + intros j Hj. rewrite Hlow by lia. apply list_lookup_insert_ne. lia.
    + intros [| j] n b' Hj Hb'; simpl in Hj.
      * injection Hj as <-. assert (b' = b) as -> by congruence.
        rewrite Nat.add_0_r. exists c. split; [exact Hc |].
        rewrite Hlow by lia. apply list_lookup_insert_eq.
        now apply lookup_lt_Some in Hc.
      * destruct (Hup j n b' Hj Hb') as (c' & Hc' & Hres).
        replace (k + S j)%nat with (S k + j)%nat by lia.
        exists c'. split; [| exact Hres].
        rewrite list_lookup_insert_ne in Hc' by lia. exact Hc'.
Qed.

(** All walkers. *)
Lemma clamp_walkers_spec model (names : list string) (p : list (list Q)) :
  (forall n, n ∈ names -> is_Some (bounds model !! n)) ->
  Forall (fun cp : list Q => length cp = length names) p ->
  exists p',
    clamp_walkers model names p = Returned p' /\
    Forall2 (fun cp cp' => clamp_walker model names 0 cp = Returned cp') p p'.
Proof.
  intros Hb. induction p as [| cp p IH]; intros Hlen.
  - exists []. split; [reflexivity | constructor].
  - apply Forall_cons in Hlen as [Hcp Hlen].
    destruct (IH Hlen) as (p' & Hrun & Hall).
    destruct (clamp_walker_spec model names 0%nat cp Hb) as (cp' & Hone & _);
      [simpl; lia |].
    exists (cp' :: p'). split; [| now constructor].
    simpl. rewrite Hone. simpl. rewrite Hrun. reflexivity.
Qed.

Lemma initial_guess_spec (param_dict : gmap string Q) (names : list string) :
  (forall n, n ∈ names -> is_Some (param_dict !! n)) ->
  exists p0, initial_guess param_dict names = Returned p0 /\
             length p0 = length names.
Proof.
  induction names as [| n names IH]; intros Hd.
  - exists []. split; reflexivity.
  - destruct (Hd n) as [v Hv]; [left |].
    destruct IH as (p0 & Hrun & Hlen); [intros m Hm; apply Hd; now right |].
    exists (v :: p0). split; [| simpl; lia].
    simpl. unfold getitem. rewrite Hv. simpl. rewrite Hrun. reflexivity.
Qed.

Lemma length_scatter normal (p0 : list Q) k :
  length (scatter normal p0 k) = length p0.
Proof. unfold scatter. apply length_imap. Qed.

End WalkerSetup.

(** C5.  The start positions [p92_emcee] hands to the sampler, after the
    random perturbation and the clamping, respect the configured bounds:
    for every walker and every fitted parameter, the component is at least
    the parameter's minimum when it has one and at most its maximum when
    it has one.  The fitted parameters are parameters of the model with an
    entry in [bounds], and a minimum and maximum that are both set are in
    order. *)
Theorem init_walkers_within_bounds zero_start normal model fit_param_names names :
  fit_names model fit_param_names = Returned names ->
  (forall n, n ∈ names ->
     is_Some (dict_zip (param_names model) (parameters model) !! n)) ->
  (forall n, n ∈ names -> exists b, bounds model !! n = Some b /\ ordered b) ->
  exists p,
    init_walkers zero_start normal model fit_param_names = Returned p /\
    length p = (10 * length names)%nat /\
    forall cp k cname b,
      cp ∈ p -> names !! k = Some cname -> bounds model !! cname = Some b ->
      exists c, cp !! k = Some c /\ within b c.
Proof.
  intros Hnames Hdict Hbounds.
  destruct (initial_guess_spec _ names Hdict) as (p0 & Hp0 & Hlen0).
  set (start := scatter normal (nudge_zeros zero_start p0) <$>
                seq 0 (10 * length names)).
  assert (Hb : forall n, n ∈ names -> is_Some (bounds model !! n)).
  { intros n Hn. destruct (Hbounds n Hn) as (b & -> & _). eauto. }
  destruct (clamp_walkers_spec model names start Hb) as (p & Hrun & Hall).
  { apply Forall_fmap, Forall_forall. intros k _. simpl.
    rewrite length_scatter. unfold nudge_zeros. now rewrite length_map. }
  exists p. split; [| split].
  - unfold init_walkers. rewrite Hnames. simpl. rewrite Hp0. simpl. exact Hrun.
  - rewrite <- (Forall2_length _ _ _ Hall). unfold start.
    now rewrite length_fmap, length_seq.
  - intros cp' k cname b Hin Hk Hbn.
    apply list_elem_of_lookup in Hin as [w Hw].
    destruct (Forall2_lookup_r _ _ _ _ _ Hall Hw) as (cp & Hcp & Hone).
    assert (Hlen : length cp = length names).
    { apply list_lookup_fmap_Some in Hcp as (k0 & -> & _).
      rewrite length_scatter. unfold nudge_zeros. now rewrite length_map. }
    destruct (clamp_walker_spec model names 0%nat cp Hb) as (cp2 & Hrun2 & _ & _ & Hup);
      [simpl; lia |].
    assert (cp2 = cp') as -> by congruence.
    destruct (Hup k cname b Hk Hbn) as (c & _ & Hres). simpl in Hres.
    exists (clamp b c). split; [exact Hres |].
    apply within_clamp.
    destruct (Hbounds cname) as (b' & Hb' & Hord).
    { now apply (list_elem_of_lookup_2 _ k). }
    now assert (b' = b) as <- by congruence.
Qed.

(** C5 at a concrete model: [a] starts at zero, [b] at 2, and every draw
    is large enough to push [b] above its maximum. *)
Lemma init_walkers_within_bounds_witness :
  exists p,
    wg20_init_walkers (fun _ _ => 100000%Q) (line_model 0 2) None = Returned p /\
    length p = (10 * length ["a"; "b"])%nat /\
    forall cp k cname b,
      cp ∈ p -> ["a"; "b"] !! k = Some cname ->
      bounds (line_model 0 2) !! cname = Some b ->
      exists c, cp !! k = Some c /\ within b c.
Proof.
  apply (init_walkers_within_bounds (24 # 10000) (fun _ _ => 100000%Q)
           (line_model 0 2) None ["a"; "b"]).
  - vm_compute. reflexivity.
  - intros n Hn.
    apply elem_of_cons in Hn as [-> | Hn]; [eexists; vm_compute; reflexivity |].
    apply elem_of_cons in Hn as [-> | Hn]; [eexists; vm_compute; reflexivity |].
    now apply elem_of_nil in Hn.
  - assert (Hord : ordered (Some 0%Q, Some 10%Q)).
    { intros lo hi [= <-] [= <-]. vm_compute. discriminate. }
    intros n Hn.
    apply elem_of_cons in Hn as [-> | Hn]; [eexists; split; [vm_compute; reflexivity | exact Hord] |].
    apply elem_of_cons in Hn as [-> | Hn]; [eexists; split; [vm_compute; reflexivity | exact Hord] |].
    now apply elem_of_nil in Hn.
Defined.

(** ** Curve shapes at their centre *)

Section ShapePeaks.

Lemma np_power_one (n : R) : np_power 1 n = 1%R.
Proof.
  unfold np_power, Rpower. now rewrite ln_1, Rmult_0_r, exp_0.
Qed.

Lemma g20_bkg_centre (amplitude c b n : R) :
  c <> 0%R ->
  G20._g20_bkg_term c amplitude c b n = (amplitude / (2 + b))%R.
Proof.
  intros Hc. unfold G20._g20_bkg_term.
  replace (c / c)%R with 1%R by now field.
  rewrite !np_power_one.
  now replace (1 + 1 + b)%R with (2 + b)%R by ring.
Qed.

End ShapePeaks.

(** The shapes with one rounding per operation. *)
Section RoundedShapes.

Variable rnd : R -> R.
Variables u tiny huge : R.
Hypothesis Hrnd : rounding rnd u tiny huge.

Lemma rounded_centre_difference (c : R) :
  Fl.square rnd (Fl.sub rnd (Fl.div rnd c c) (Fl.div rnd c c)) = 0%R.
Proof.
  unfold Fl.square, Fl.sub.
  replace (Fl.div rnd c c - Fl.div rnd c c)%R with 0%R by ring.
  rewrite (rnd_0 _ _ _ _ Hrnd).
  replace (0 * 0)%R with 0%R by ring. apply (rnd_0 _ _ _ _ Hrnd).
Qed.

Lemma rounded_drude_centre (amplitude cen_wave width : R) :
  centre_in_range rnd tiny huge amplitude cen_wave width ->
  (Rabs (Fl._g20_drude_term rnd cen_wave amplitude cen_wave width - amplitude)
   <= (2 * u + u * u) * Rabs amplitude)%R.
Proof.
  intros [Hprod Hquot]. unfold Fl._g20_drude_term.
  rewrite rounded_centre_difference.
  set (w := Fl.square rnd (Fl.div rnd width cen_wave)) in *.
  assert (Hsum : Fl.add rnd 0 w = w).
  { unfold Fl.add. replace (0 + w)%R with w by ring.
    unfold w, Fl.square. apply (rnd_float _ _ _ _ Hrnd). }
  rewrite Hsum.
  set (p := Fl.mul rnd amplitude w) in *.
  pose proof (roundoff_nonneg _ _ _ _ Hrnd) as Hu.
  pose proof (tiny_pos _ _ _ _ Hrnd) as Htiny.
  assert (Hw : w <> 0%R).
  { intros Hz. destruct Hquot as [Hlo _]. rewrite Hz in Hlo.
    unfold Rdiv in Hlo. rewrite Rinv_0, Rmult_0_r, Rabs_R0 in Hlo. lra. }
  pose proof (rnd_error _ _ _ _ Hrnd _ Hprod) as E1. fold (Fl.mul rnd amplitude w) in E1.
  fold p in E1.
  pose proof (rnd_error _ _ _ _ Hrnd _ Hquot) as E2.
  fold (Fl.div rnd p w) in E2.
  set (q := (p / w)%R) in *.
  set (r := Fl.div rnd p w) in *.
  assert (Hq : (Rabs (q - amplitude) <= u * Rabs amplitude)%R).
  { apply Rmult_le_reg_r with (Rabs w); [now apply Rabs_pos_lt |].
    rewrite <- Rabs_mult.
    replace ((q - amplitude) * w)%R with (p - amplitude * w)%R
      by (unfold q; field; exact Hw).
    rewrite Rmult_assoc, <- Rabs_mult. exact E1. }
  assert (Hq1 : (Rabs q <= Rabs amplitude + u * Rabs amplitude)%R).
  { pose proof (Rabs_triang amplitude (q - amplitude)) as T.
    replace (amplitude + (q - amplitude))%R with q in T by ring. lra. }
  pose proof (Rabs_triang (r - q) (q - amplitude)) as T.
  replace (r - q + (q - amplitude))%R with (r - amplitude)%R in T by ring.
  assert (Hrq : (u * Rabs q <= u * (Rabs amplitude + u * Rabs amplitude))%R)
    by now apply Rmult_le_compat_l.
  lra.
Qed.

Lemma rounded_bkg_centre (amplitude cen_wave b n : R) :
  cen_wave <> 0%R ->
  Fl._g20_bkg_term rnd cen_wave amplitude cen_wave b n =
  rnd (amplitude / rnd (2 + b))%R.
Proof.
  intros Hc. unfold Fl._g20_bkg_term. cbv zeta.
  assert (Hl : Fl.div rnd cen_wave cen_wave = 1%R).
  { unfold Fl.div. replace (cen_wave / cen_wave)%R with 1%R by (field; exact Hc).
    apply (rnd_1 _ _ _ _ Hrnd). }
  rewrite Hl. unfold Fl.power. rewrite !np_power_one.
  rewrite (rnd_1 _ _ _ _ Hrnd). unfold Fl.add at 2.
  replace (1 + 1)%R with 2%R by ring. rewrite (rnd_2 _ _ _ _ Hrnd).
  reflexivity.
Qed.

End RoundedShapes.

Lemma exact_rounding (u tiny huge : R) :
  (0 <= u)%R -> (0 < tiny)%R -> rounding (fun x => x) u tiny huge.
Proof.
  intros Hu Ht. constructor; try reflexivity; try assumption.
  intros x _. replace (x - x)%R with 0%R by ring. rewrite Rabs_R0.
  apply Rmult_le_pos; [exact Hu | apply Rabs_pos].
Qed.




(** ** The valid range of [G20] *)

(** C4.  [G20.evaluate] raises [ValueError] whenever one wavenumber of the
    input lies outside [x_range = [1/1e3, 1/1e-3]]. *)
Theorem g20_evaluate_out_of_range (in_x : list R) (p : G20.params) (x : R) :
  x ∈ in_x ->
  (x < 1 / 1000 \/ 1 / (1 / 1000) < x)%R ->
  G20.evaluate in_x p = Raised ValueError.
Proof.
  intros Hin Hout. unfold G20.evaluate, G20._test_valid_x_range,
    G20._get_x_in_wavenumbers.
  assert (existsb (G20.out_of_range G20.x_range) in_x = true) as ->; [| reflexivity].
  apply existsb_exists. exists x. split; [now apply list_elem_of_In |].
  unfold G20.out_of_range, G20.x_range. simpl.
  destruct (Rlt_dec x (1 / 1000)); [reflexivity |].
  destruct (Rlt_dec (1 / (1 / 1000)) x); [reflexivity |].
  tauto.
Qed.

(** C4 at a wavenumber of 2000 inverse microns, next to one in range. *)
Lemma g20_evaluate_out_of_range_witness :
  G20.evaluate [1%R; 2000%R] G20.defaults = Raised ValueError.
Proof.
  apply (g20_evaluate_out_of_range [1%R; 2000%R] G20.defaults 2000%R).
  - right. left.
  - right. lra.
Defined.

(** ** The sampler's chain *)

Section EmceeChain.

Context {rstate : Type}.
Variable move : rstate -> list (list Q) -> list (list Q) * list lnp * rstate.

(** A move returns a position for every walker. *)
Hypothesis move_walkers :
  forall st pos, length (move st pos).1.1 = length pos.

Lemma nth_map_seq {B} (f : nat -> B) n w d :
  (w < n)%nat -> nth w (map f (seq 0 n)) d = f w.
Proof.
  intros Hw. rewrite (nth_indep _ d (f 0%nat)) by now rewrite length_map, length_seq.
  rewrite map_nth. f_equal. now rewrite seq_nth.
Qed.

Lemma map_seq_S {B} (f : nat -> B) n :
  map f (seq 0 (S n)) = f 0%nat :: map (fun t => f (S t)) (seq 0 n).
Proof.
  simpl. f_equal. rewrite <- seq_shift. now rewrite map_map.
Qed.

Lemma nth_zip_with_snoc {A} (l : list (list A)) :
  forall (xs : list A) w d,
    (w < length l)%nat -> (w < length xs)%nat ->
    nth w (zip_with (fun r x => r ++ [x]) l xs) [] = nth w l [] ++ [nth w xs d].
Proof.
  induction l as [| r l IH]; intros [| x xs] w d Hl Hx; simpl in *; try lia.
  destruct w as [| w]; [reflexivity |]. apply IH; lia.
Qed.

Lemma walk_length n :
  forall pos st, length (walk move n pos st).1 = length pos.
Proof.
  induction n as [| n IH]; intros pos st; [reflexivity |].
  simpl. pose proof (move_walkers st pos) as Hm.
  destruct (move st pos) as [[pos' prob'] st']. simpl in Hm.
  now rewrite IH.
Qed.

Lemma walk_add a :
  forall b pos st,
    walk move (a + b) pos st =
    walk move b (walk move a pos st).1 (walk move a pos st).2.
Proof.
  induction a as [| a IH]; intros b pos st; [reflexivity |].
  simpl. destruct (move st pos) as [[pos' prob'] st']. apply IH.
Qed.

(** What [run_steps] returns is where the walk ends. *)
Lemma run_steps_result n :
  forall s pos prob st,
    (run_steps move n s pos prob st).2.1.1 = (walk move n pos st).1 /\
    (run_steps move n s pos prob st).2.2 = (walk move n pos st).2.
Proof.
  induction n as [| n IH]; intros s pos prob st; [now split |].
  simpl. destruct (move st pos) as [[pos' prob'] st']. apply IH.
Qed.

(** What [run_steps] stores: every walker's chain grows by its positions
    along the walk. *)
Lemma run_steps_chain n :
  forall s pos prob st,
    length (chain s) = length pos ->
    chain (run_steps move n s pos prob st).1 =
    map (fun w => nth w (chain s) [] ++
                  map (fun t => nth w (walk move (S t) pos st).1 []) (seq 0 n))
        (seq 0 (length pos)).
Proof.
  induction n as [| n IH]; intros s pos prob st Hlen.
  - simpl. apply (nth_ext _ _ [] []).
    + now rewrite length_map, length_seq.
    + intros w Hw. rewrite nth_map_seq by lia. now rewrite app_nil_r.
  - pose proof (move_walkers st pos) as Hm.
    assert (Hwalk : forall t, walk move (S t) pos st =
                              walk move t (move st pos).1.1 (move st pos).2).
    { intros t. simpl. now destruct (move st pos) as [[? ?] ?]. }
    cbn [run_steps].
    destruct (move st pos) as [[pos' prob'] st'] eqn:Hmv.
    simpl in Hm. cbn [fst snd] in Hwalk.
    rewrite IH by (simpl; rewrite length_zip_with; lia).
    rewrite Hm. apply map_ext_in. intros w Hw. apply in_seq in Hw.
    rewrite map_seq_S, (Hwalk 0%nat).
    change (walk move 0 pos' st') with (pos', st'). cbn [fst chain record_step].
    rewrite (nth_zip_with_snoc _ _ _ []) by lia.
    rewrite <- app_assoc. cbn [app]. do 2 f_equal.
    apply map_ext. intros t. now rewrite Hwalk.
Qed.

Lemma run_mcmc_steps s pos0 N st :
  (0 < N)%nat ->
  run_mcmc move s pos0 N st =
  ((run_steps move N s pos0 [] st).1,
   Returned (run_steps move N s pos0 [] st).2).
Proof.
  intros HN. unfold run_mcmc. destruct N as [| N]; [lia |].
  now destruct (run_steps move (S N) s pos0 [] st).
Qed.

Lemma nth_replicate_same {A} (x : A) n :
  forall w, nth w (replicate n x) x = x.
Proof.
  induction n as [| n IH]; intros [| w]; simpl; auto.
Qed.

Lemma fresh_chain_length n : length (chain (fresh n)) = n.
Proof. apply length_replicate. Qed.

(** After a burn-in of [burn] moves, a reset and [nsteps] more moves, the
    chain holds the positions after the moves [burn + 1 .. burn + nsteps]
    and nothing of the burn-in. *)
Lemma p92_emcee_sample_chain p burn nsteps st0 :
  (0 < burn)%nat -> (0 < nsteps)%nat ->
  exists s,
    p92_emcee_sample move p (Some burn) nsteps st0 = Returned s /\
    chain s = map (post_burn_in move p st0 burn nsteps) (seq 0 (length p)).
Proof.
  intros Hb Hn. unfold p92_emcee_sample.
  rewrite (run_mcmc_steps _ _ burn) by exact Hb.
  pose proof (run_steps_result burn (fresh (length p)) p [] st0) as [Hpos Hst].
  pose proof (run_steps_chain burn (fresh (length p)) p [] st0
                (fresh_chain_length _)) as Hch1.
  destruct (run_steps move burn (fresh (length p)) p [] st0)
    as [s1 [[pos prob] state]].
  cbn [fst snd] in Hpos, Hst, Hch1. subst pos state.
  assert (Hw : length (walk move burn p st0).1 = length p) by apply walk_length.
  assert (Hl1 : length (chain s1) = length p).
  { rewrite Hch1. now rewrite length_map, length_seq. }
  assert (Hl2 : length (chain (reset s1)) = length (walk move burn p st0).1).
  { unfold reset. now rewrite fresh_chain_length, Hl1, Hw. }
  cbn [fst snd mbind result_bind Py.bind].
  rewrite (run_mcmc_steps _ _ nsteps) by exact Hn.
  pose proof (run_steps_chain nsteps (reset s1) (walk move burn p st0).1 []
                (walk move burn p st0).2 Hl2) as Hch2.
  destruct (run_steps move nsteps (reset s1) (walk move burn p st0).1 []
              (walk move burn p st0).2) as [s3 r3].
  cbn [fst snd mbind result_bind Py.bind] in *.
  exists s3. split; [reflexivity |].
  rewrite Hch2, Hw. apply map_ext_in. intros w Hin. apply in_seq in Hin.
  unfold reset, fresh. cbn [chain]. rewrite Hl1.
  replace (nth w (replicate (length p) []) []) with (@nil (list Q)).
  - cbn [app]. unfold post_burn_in. apply map_ext. intros t.
    now rewrite (walk_add burn (S t)).
  - symmetry. apply nth_replicate_same.
Qed.

End EmceeChain.

(** ** The percentile summary *)

Section PercentileSummary.

Variable percentile : list Q -> Q -> Q.

Lemma lookup_map {A B} (f : A -> B) (l : list A) :
  forall j, map f l !! j = f <$> l !! j.
Proof.
  induction l as [| a l IH]; intros [| j]; simpl; auto.
Qed.

Lemma lookup_map_seq {B} (f : nat -> B) n j :
  (j < n)%nat -> map f (seq 0 n) !! j = Some (f j).
Proof.
  intros Hj. rewrite lookup_map, lookup_seq_lt by exact Hj. reflexivity.
Qed.

(** [per_params] has one triple per fitted parameter: the median of the
    parameter's column of the flattened chain, and the distances from the
    median to the 84th and to the 16th percentile. *)
Lemma per_params_spec (chain : list (list (list Q))) ndim :
  length (per_params percentile chain ndim) = ndim /\
  forall j, (j < ndim)%nat ->
    per_params percentile chain ndim !! j =
    Some (let m := column j (concat chain) in
          (percentile m 50, percentile m 84 - percentile m 50,
           percentile m 50 - percentile m 16)%Q).
Proof.
  unfold per_params, np_percentile_axis0, zip_star, reshape_samples.
  cbn [map foldl]. rewrite !length_map, !length_seq, !Nat.min_id.
  split; [reflexivity |].
  intros j Hj. rewrite lookup_map, lookup_map_seq by exact Hj.
  cbn [fmap option_fmap option_map map]. unfold summary. cbn [nth].
  rewrite !(nth_map_seq _ _ _ 0%Q) by exact Hj. reflexivity.
Qed.

End PercentileSummary.

(** C7.  With a burn-in, the triples [p92_emcee] derives are, for every
    fitted parameter, [(p50, p84 - p50, p50 - p16)]: the 50th, 84th and
    16th percentile of the parameter's values over all walkers and over
    the [nsteps] steps that follow the burn-in.  The burn-in steps are not
    among them: the sampler was reset before the sampling run. *)
Theorem p92_emcee_per_params_percentiles {rstate : Type}
    (move : rstate -> list (list Q) -> list (list Q) * list lnp * rstate)
    (percentile : list Q -> Q -> Q)
    (p : list (list Q)) (ndim burn nsteps : nat) (st0 : rstate) :
  (forall st pos, length (move st pos).1.1 = length pos) ->
  (0 < burn)%nat -> (0 < nsteps)%nat ->
  exists out,
    p92_emcee_per_params move percentile p ndim (Some burn) nsteps st0 =
      Returned out /\
    length out = ndim /\
    forall j, (j < ndim)%nat ->
      out !! j =
      Some (let m := marginal move p st0 burn nsteps j in
            (percentile m 50, percentile m 84 - percentile m 50,
             percentile m 50 - percentile m 16)%Q).
Proof.
  intros Hmove Hb Hn.
  destruct (p92_emcee_sample_chain move Hmove p burn nsteps st0 Hb Hn)
    as (s & Hs & Hchain).
  destruct (per_params_spec percentile (chain s) ndim) as [Hlen Hout].
  exists (per_params percentile (chain s) ndim). split; [| split].
  - unfold p92_emcee_per_params. now rewrite Hs.
  - exact Hlen.
  - intros j Hj. rewrite (Hout j Hj), Hchain. reflexivity.
Qed.

(** C7 at a concrete run: two walkers, one parameter, one burn-in step and
    two sampling steps. *)
Lemma p92_emcee_per_params_percentiles_witness :
  exists out,
    p92_emcee_per_params drift linear_percentile [[0]; [10]]%Q 1 (Some 1%nat) 2 tt =
      Returned out /\
    length out = 1%nat /\
    forall j, (j < 1)%nat ->
      out !! j =
      Some (let m := marginal drift [[0]; [10]]%Q tt 1 2 j in
            (linear_percentile m 50,
             linear_percentile m 84 - linear_percentile m 50,
             linear_percentile m 50 - linear_percentile m 16)%Q).
Proof.
  apply (p92_emcee_per_params_percentiles drift linear_percentile
           [[0]; [10]]%Q 1 1 2 tt).
  - intros st pos. simpl. apply length_map.
  - lia.
  - lia.
Defined.

(** * Further properties of the scripts *)

(** ** The sign of the likelihood *)

Section LikelihoodSign.

Lemma foldl_Qplus_nonneg (l : list Q) :
  forall acc, (0 <= acc)%Q -> Forall (fun v => 0 <= v)%Q l ->
    (0 <= foldl Qplus acc l)%Q.
Proof.
  induction l as [| a l IH]; intros acc Hacc Hl; [exact Hacc |].
  apply Forall_cons in Hl as [Ha Hl]. simpl. apply IH; [lra | exact Hl].
Qed.

Lemma np_square_nonneg (r : list Q) : Forall (fun v => 0 <= v)%Q (np_square r).
Proof.
  unfold np_square. apply Forall_forall. intros v Hv.
  apply list_elem_of_In, in_map_iff in Hv as (w & <- & _).
  simpl. nra.
Qed.

Lemma log_likelihood_nonpos model x y uncs out :
  log_likelihood model x y uncs = Returned out ->
  exists q, out = Fin q /\ (q <= 0)%Q.
Proof.
  unfold log_likelihood. destruct (call model x) as [m | e]; [| discriminate].
  simpl. destruct (np_binop Qminus m y) as [d | e]; [| discriminate].
  simpl. destruct (np_binop Qdiv d uncs) as [r | e]; [| discriminate].
  simpl. intros [= <-]. eexists. split; [reflexivity |].
  pose proof (foldl_Qplus_nonneg (np_square r) 0%Q) as H.
  unfold np_sum. specialize (H ltac:(lra) (np_square_nonneg r)). lra.
Qed.

Lemma wg20_loop_early_return params names :
  forall k model v,
    (CalcExtWG20.lnprob_loop params k names model).2 = Returned (Some v) ->
    v = NegInf.
Proof.
  induction names as [| cname rest IH]; intros k model v; simpl; [discriminate |].
  destruct (bounds model !! cname) as [[lo hi] |]; [| discriminate].
  destruct (params !! k) as [c |]; [| discriminate].
  destruct (below c lo); [now intros [= <-] |].
  destruct (above c hi); [now intros [= <-] |].
  destruct (set_value model cname c) as [m' | e]; [apply IH | discriminate].
Qed.

Lemma calc_ext_loop_early_return pd params names :
  forall k model v,
    (CalcExt.lnprob_loop pd params k names model).2 = Returned (Some v) ->
    v = NegInf.
Proof.
  induction names as [| cname rest IH]; intros k model v; simpl; [discriminate |].
  destruct (bounds model !! cname) as [[lo hi] |]; [| discriminate].
  destruct (match lo with
            | Some l => c ← getitem pd cname; Returned (Qltb c l)
            | None => Returned false
            end) as [[|] | e]; [now intros [= <-] | | discriminate].
  destruct (match hi with
            | Some h => c ← getitem pd cname; Returned (Qgtb c h)
            | None => Returned false
            end) as [[|] | e]; [now intros [= <-] | | discriminate].
  destruct (params !! k) as [c |]; [| discriminate].
  destruct (set_value model cname c) as [m' | e]; [apply IH | discriminate].
Qed.

End LikelihoodSign.

(** X1.  No version of [lnprob] ever returns a positive value: with
    uncertainties that are not zero, what it returns is [-np.inf] or a
    finite number that is at most zero. *)
Theorem lnprob_never_positive params x y uncs model names out :
  Forall (fun s => ~ (s == 0)%Q) uncs ->
  (CalcExtWG20.lnprob params x y uncs model names).2 = Returned out \/
  (CalcExt.lnprob params x y uncs model names).2 = Returned out ->
  out = NegInf \/ exists q, out = Fin q /\ (q <= 0)%Q.
Proof.
  intros _ [H | H].
  - unfold CalcExtWG20.lnprob in H.
    pose proof (wg20_loop_early_return params names 0%nat model) as Hearly.
    destruct (CalcExtWG20.lnprob_loop params 0 names model) as [m' [[v |] | e]];
      simpl in *.
    + left. injection H as <-. now apply Hearly.
    + right. now apply (log_likelihood_nonpos m' x y uncs).
    + discriminate.
  - unfold CalcExt.lnprob in H.
    pose proof (calc_ext_loop_early_return
                  (dict_zip (param_names model) (parameters model))
                  params names 0%nat model) as Hearly.
    destruct (CalcExt.lnprob_loop _ params 0 names model) as [m' [[v |] | e]];
      simpl in *.
    + left. injection H as <-. now apply Hearly.
    + right. now apply (log_likelihood_nonpos m' x y uncs).
    + discriminate.
Qed.

(** X1 at a concrete call. *)
Lemma lnprob_never_positive_witness :
  Fin (-1 # 2) = NegInf \/ exists q, Fin (-1 # 2) = Fin q /\ (q <= 0)%Q.
Proof.
  apply (lnprob_never_positive [5; 2]%Q [1]%Q [6]%Q [1]%Q (line_model 20 2)
           ["a"; "b"] (Fin (-1 # 2))).
  - repeat constructor; vm_compute; discriminate.
  - left. vm_compute. reflexivity.
Defined.

(** ** What [lnprob] leaves of the model *)

Section LnprobFrame.

Lemma same_settings_refl m : same_settings m m.
Proof. now repeat split. Qed.

Lemma same_settings_trans m1 m2 m3 :
  same_settings m1 m2 -> same_settings m2 m3 -> same_settings m1 m3.
Proof.
  intros (? & ? & ? & ?) (? & ? & ? & ?). repeat split; congruence.
Qed.

Lemma same_settings_store model cname v :
  same_settings model (store model cname v).
Proof.
  unfold store, set_value. destruct (index_of _ _); now repeat split.
Qed.

Lemma length_store model cname v :
  length (parameters (store model cname v)) = length (parameters model).
Proof.
  unfold store, set_value. destruct (index_of _ _); [| reflexivity].
  simpl. apply length_insert.
Qed.

Lemma set_value_store model cname v m' :
  set_value model cname v = Returned m' -> m' = store model cname v.
Proof. unfold store. now intros ->. Qed.

Lemma wg20_loop_frame params names :
  forall k model,
    same_settings model (CalcExtWG20.lnprob_loop params k names model).1 /\
    length (parameters (CalcExtWG20.lnprob_loop params k names model).1) =
      length (parameters model) /\
    forall n, n ∉ names ->
      get_value (CalcExtWG20.lnprob_loop params k names model).1 n =
      get_value model n.
Proof.
  induction names as [| cname rest IH]; intros k model; simpl.
  - split; [apply same_settings_refl | now split].
  - destruct (bounds model !! cname) as [[lo hi] |];
      [| split; [apply same_settings_refl | now split]].
    destruct (params !! k) as [c |];
      [| split; [apply same_settings_refl | now split]].
    destruct (below c lo); [split; [apply same_settings_refl | now split] |].
    destruct (above c hi); [split; [apply same_settings_refl | now split] |].
    destruct (set_value model cname c) as [m' | e] eqn:Hset;
      [| split; [apply same_settings_refl | now split]].
    apply set_value_store in Hset. subst m'.
    destruct (IH (S k) (store model cname c)) as (Hs & Hl & Hg).
    split; [| split].
    + eapply same_settings_trans; [apply same_settings_store | exact Hs].
    + now rewrite Hl, length_store.
    + intros n Hn. apply not_elem_of_cons in Hn as [Hne Hn].
      rewrite (Hg n Hn). now apply get_store_ne.
Qed.

Lemma wg20_lnprob_state params x y uncs model names :
  (CalcExtWG20.lnprob params x y uncs model names).1 =
  (CalcExtWG20.lnprob_loop params 0 names model).1.
Proof.
  unfold CalcExtWG20.lnprob.
  now destruct (CalcExtWG20.lnprob_loop params 0 names model) as [m' [[v |] | e]].
Qed.

End LnprobFrame.

(** X2.  Whatever it is called with and however it ends, [lnprob] of
    [calc_ext_wG20.py] leaves the model with its parameter names, bounds,
    fixed flags and function, with as many parameter values as before,
    and with the value of every parameter that is not in the
    fit-parameter list. *)
Theorem wg20_lnprob_frame params x y uncs model names :
  same_settings model (CalcExtWG20.lnprob params x y uncs model names).1 /\
  length (parameters (CalcExtWG20.lnprob params x y uncs model names).1) =
    length (parameters model) /\
  forall n, n ∉ names ->
    get_value (CalcExtWG20.lnprob params x y uncs model names).1 n =
    get_value model n.
Proof.
  rewrite wg20_lnprob_state. apply wg20_loop_frame.
Qed.

(** X3.  After a call of [lnprob] of [calc_ext_wG20.py] with a proposal
    inside all its bounds, the model holds the proposal: every fitted
    parameter has the value proposed for it.  The fit-parameter names are
    distinct parameters of the model. *)
Theorem wg20_lnprob_accepted_state params x y uncs model names i n v :
  aligned model ->
  NoDup names ->
  Forall2 (accepts model) names params ->
  names !! i = Some n ->
  params !! i = Some v ->
  get_value (CalcExtWG20.lnprob params x y uncs model names).1 n = Some v.
Proof.
  intros Hal Hnd Hacc Hn Hv.
  rewrite (wg20_lnprob_in_bounds _ _ _ _ _ _ Hacc). simpl.
  apply get_assign_member; auto.
  - rewrite fst_zip; [exact Hnd |]. now rewrite (Forall2_length _ _ _ Hacc).
  - apply (list_elem_of_lookup_2 _ i). now apply lookup_zip_Some.
  - eapply (Forall2_lookup_lr _ _ _ i n v) in Hacc as [Hk _]; eauto.
Qed.

(** X3 at a concrete call. *)
Lemma wg20_lnprob_accepted_state_witness :
  get_value (CalcExtWG20.lnprob [5; 2]%Q [1]%Q [6]%Q [1]%Q (line_model 20 2)
               ["a"; "b"]).1 "a" = Some 5%Q.
Proof.
  apply (wg20_lnprob_accepted_state [5; 2]%Q [1]%Q [6]%Q [1]%Q (line_model 20 2)
           ["a"; "b"] 0%nat "a" 5%Q).
  - reflexivity.
  - apply NoDup_cons. split; [| apply NoDup_singleton].
    intros H. apply elem_of_cons in H as [H | H]; [discriminate |].
    now apply elem_of_nil in H.
  - constructor; [| constructor; [| constructor]];
      apply acceptsb_accepts; vm_compute; reflexivity.
  - reflexivity.
  - reflexivity.
Defined.

(** ** The likelihood is a function of the proposal *)

Section LnprobHistory.

Lemma agree_off_nil m1 m2 :
  agree_off [] m1 m2 ->
  parameters m1 = parameters m2 /\ evaluate m1 = evaluate m2.
Proof.
  intros ((_ & _ & _ & He) & _ & Hp). split; [| exact He].
  apply list_eq. intros i. apply Hp. intros n Hn. now apply elem_of_nil in Hn.
Qed.

Lemma agree_off_store cname rest m1 m2 c :
  agree_off (cname :: rest) m1 m2 ->
  agree_off rest (store m1 cname c) (store m2 cname c).
Proof.
  intros ((Hn & Hb & Hf & He) & Hl & Hp).
  split; [| split].
  - pose proof (same_settings_store m1 cname c) as (? & ? & ? & ?).
    pose proof (same_settings_store m2 cname c) as (? & ? & ? & ?).
    repeat split; congruence.
  - now rewrite !length_store.
  - intros j Hj. rewrite store_param_names in Hj.
    unfold store, set_value. rewrite <- Hn.
    destruct (index_of cname (param_names m1)) as [i |] eqn:Hi; simpl.
    + destruct (decide (i = j)) as [-> | Hne].
      * destruct (decide (j < length (parameters m1))%nat) as [Hlt | Hge].
        -- rewrite !list_lookup_insert_eq by lia. reflexivity.
        -- rewrite !lookup_ge_None_2 by (rewrite length_insert; lia). reflexivity.
      * rewrite !list_lookup_insert_ne by exact Hne.
        apply Hp. intros n Hin. apply elem_of_cons in Hin as [-> | Hin].
        -- rewrite Hi. congruence.
        -- now apply Hj.
    + apply Hp. intros n Hin. apply elem_of_cons in Hin as [-> | Hin].
      * now rewrite Hi.
      * now apply Hj.
Qed.

Lemma wg20_loop_agree params names :
  forall k m1 m2,
    agree_off names m1 m2 ->
    (CalcExtWG20.lnprob_loop params k names m1).2 =
    (CalcExtWG20.lnprob_loop params k names m2).2 /\
    ((CalcExtWG20.lnprob_loop params k names m1).2 = Returned None ->
     agree_off [] (CalcExtWG20.lnprob_loop params k names m1).1
                  (CalcExtWG20.lnprob_loop params k names m2).1).
Proof.
  induction names as [| cname rest IH]; intros k m1 m2 Hag; simpl.
  - split; [reflexivity | intros _; exact Hag].
  - pose proof Hag as ((Hn & Hb & Hf & He) & Hl & Hp).
    rewrite <- Hb. destruct (bounds m1 !! cname) as [[lo hi] |];
      [| split; [reflexivity | discriminate]].
    destruct (params !! k) as [c |]; [| split; [reflexivity | discriminate]].
    destruct (below c lo); [split; [reflexivity | discriminate] |].
    destruct (above c hi); [split; [reflexivity | discriminate] |].
    pose proof (agree_off_store cname rest m1 m2 c Hag) as Hnext.
    unfold store in Hnext. unfold set_value in *. rewrite <- Hn in *.
    destruct (index_of cname (param_names m1)) as [i |];
      [| split; [reflexivity | discriminate]].
    now apply IH.
Qed.

End LnprobHistory.

(** X4.  The outcome of [lnprob] of [calc_ext_wG20.py] does not depend on
    the values the fitted parameters had before the call: on two models
    that differ at most in the values of the parameters in the
    fit-parameter list, the same call returns the same value or raises
    the same exception. *)
Theorem wg20_lnprob_history_free params x y uncs names m1 m2 :
  agree_off names m1 m2 ->
  (CalcExtWG20.lnprob params x y uncs m1 names).2 =
  (CalcExtWG20.lnprob params x y uncs m2 names).2.
Proof.
  intros Hag. destruct (wg20_loop_agree params names 0%nat m1 m2 Hag) as [Ho Hm].
  unfold CalcExtWG20.lnprob.
  destruct (CalcExtWG20.lnprob_loop params 0 names m1) as [m1' o1].
  destruct (CalcExtWG20.lnprob_loop params 0 names m2) as [m2' o2].
  simpl in *. subst o2. destruct o1 as [[v |] | e]; try reflexivity.
  destruct (agree_off_nil m1' m2' (Hm eq_refl)) as [Hp He]. simpl.
  unfold log_likelihood, call. now rewrite Hp, He.
Qed.

(** X4 at two straight lines with different slopes and intercepts on
    entry. *)
Lemma wg20_lnprob_history_free_witness :
  (CalcExtWG20.lnprob [5; 2]%Q [1]%Q [6]%Q [1]%Q (line_model 1 2) ["a"; "b"]).2 =
  (CalcExtWG20.lnprob [5; 2]%Q [1]%Q [6]%Q [1]%Q (line_model 20 9) ["a"; "b"]).2.
Proof.
  apply (wg20_lnprob_history_free [5; 2]%Q [1]%Q [6]%Q [1]%Q ["a"; "b"]
           (line_model 1 2) (line_model 20 9)).
  split; [now repeat split | split; [reflexivity |]].
  intros [| [| i]] Hi.
  - exfalso. apply (Hi "a"); [left | reflexivity].
  - exfalso. apply (Hi "b"); [right; left | reflexivity].
  - reflexivity.
Defined.

(** X5.  A fit-parameter name without an entry in [bounds] makes [lnprob]
    of [calc_ext_wG20.py] raise [KeyError], once the proposed values
    before it have been accepted. *)
Theorem wg20_lnprob_unknown_name params x y uncs model names j bad :
  Forall2 (accepts model) (take j names) (take j params) ->
  names !! j = Some bad ->
  bounds model !! bad = None ->
  (CalcExtWG20.lnprob params x y uncs model names).2 = Raised KeyError.
Proof.
  intros Hacc Hn Hb. unfold CalcExtWG20.lnprob.
  rewrite <- (take_drop j names) at 1.
  rewrite (lnprob_loop_prefix params (take j names) (take j params) 0%nat
             model (drop j names) (drop j params) Hacc)
    by now rewrite take_drop.
  rewrite (drop_S _ _ _ Hn). simpl. now rewrite assign_bounds, Hb.
Qed.

(** X5 at a concrete call. *)
Lemma wg20_lnprob_unknown_name_witness :
  (CalcExtWG20.lnprob [5; 2]%Q [1]%Q [6]%Q [1]%Q (line_model 1 2)
     ["a"; "c"]).2 = Raised KeyError.
Proof.
  apply (wg20_lnprob_unknown_name [5; 2]%Q [1]%Q [6]%Q [1]%Q (line_model 1 2)
           ["a"; "c"] 1%nat "c").
  - simpl. constructor; [| constructor].
    apply acceptsb_accepts. vm_compute. reflexivity.
  - reflexivity.
  - vm_compute. reflexivity.
Defined.

(** ** [lnprob] of [calc_ext.py] and the values on entry *)

Section CalcExtEntry.

Lemma entry_ok_store pd model cname w n :
  entry_ok pd model n -> entry_ok pd (store model cname w) n.
Proof.
  unfold entry_ok, known. now rewrite store_param_names, store_bounds.
Qed.

Lemma calc_ext_loop_entry pd params names :
  forall k model,
    Forall (entry_ok pd model) names ->
    (k + length names <= length params)%nat ->
    CalcExt.lnprob_loop pd params k names model =
    (assign model (zip names (drop k params)), Returned None).
Proof.
  induction names as [| cname rest IH]; intros k model Hok Hlen; [reflexivity |].
  apply Forall_cons in Hok as [(Hk & [lo hi] & c & Hb & Hpd & Hin) Hok].
  simpl in Hlen.
  destruct (lookup_lt_is_Some_2 params k) as [v Hv]; [lia |].
  apply accepts_checks in Hin as [Hlo Hhi].
  simpl. rewrite Hb.
  assert (Hbelow : match lo with
                   | Some l => c0 ← getitem pd cname; Returned (Qltb c0 l)
                   | None => Returned false
                   end = Returned false).
  { destruct lo as [l |]; [| reflexivity].
    unfold getitem. rewrite Hpd. simpl. now rewrite <- Hlo. }
  assert (Habove : match hi with
                   | Some h => c0 ← getitem pd cname; Returned (Qgtb c0 h)
                   | None => Returned false
                   end = Returned false).
  { destruct hi as [h |]; [| reflexivity].
    unfold getitem. rewrite Hpd. simpl. now rewrite <- Hhi. }
  rewrite Hbelow, Habove, Hv, (set_value_known _ _ _ Hk).
  rewrite (drop_S _ _ _ Hv). simpl. apply IH; [| lia].
  eapply Forall_impl; [exact Hok |]. intros n. apply entry_ok_store.
Qed.

End CalcExtEntry.

(** X6.  [lnprob] of [calc_ext.py] tests the model's values on entry, not
    the proposal: when the model's own value of every fitted parameter is
    inside its bounds, the call writes the whole proposal into the model
    and returns the likelihood of the updated model, whatever the
    proposal is. *)
Theorem calc_ext_lnprob_tests_entry_values params x y uncs model names :
  Forall (entry_ok (dict_zip (param_names model) (parameters model)) model)
         names ->
  length params = length names ->
  CalcExt.lnprob params x y uncs model names =
  (assign model (zip names params),
   log_likelihood (assign model (zip names params)) x y uncs).
Proof.
  intros Hok Hlen. unfold CalcExt.lnprob.
  rewrite (calc_ext_loop_entry _ params names 0%nat model Hok) by (simpl; lia).
  reflexivity.
Qed.

(** X6 at a proposal that is outside the bounds in both components. *)
Lemma calc_ext_lnprob_tests_entry_values_witness :
  CalcExt.lnprob [20; 30]%Q [1]%Q [6]%Q [1]%Q (line_model 1 2) ["a"; "b"] =
  (assign (line_model 1 2) (zip ["a"; "b"] [20; 30]%Q),
   log_likelihood (assign (line_model 1 2) (zip ["a"; "b"] [20; 30]%Q))
     [1]%Q [6]%Q [1]%Q).
Proof.
  apply (calc_ext_lnprob_tests_entry_values [20; 30]%Q [1]%Q [6]%Q [1]%Q
           (line_model 1 2) ["a"; "b"]).
  - assert (Hin : ~ violates (Some 0%Q, Some 10%Q) 1 /\
                  ~ violates (Some 0%Q, Some 10%Q) 2).
    { split; intros [(lo & [= <-] & H) | (hi & [= <-] & H)];
        vm_compute in H; discriminate. }
    destruct Hin as [H1 H2].
    constructor; [| constructor; [| constructor]].
    + split; [eexists; vm_compute; reflexivity |].
      exists (Some 0%Q, Some 10%Q), 1%Q.
      split; [vm_compute; reflexivity | split; [vm_compute; reflexivity | exact H1]].
    + split; [eexists; vm_compute; reflexivity |].
      exists (Some 0%Q, Some 10%Q), 2%Q.
      split; [vm_compute; reflexivity | split; [vm_compute; reflexivity | exact H2]].
  - reflexivity.
Defined.

(** ** [get_best_fit_params], read from its result *)

Section BestFitResult.

Variable sampler : Sampler.

Lemma best_fit_loop_cons row rest k mx best :
  best_fit_loop sampler (row :: rest) k mx best =
  match np_max row with
  | Raised e => Raised e
  | Returned t =>
      if lnp_gtb t mx then
        match index (np_where_eq row t 0) 0 with
        | Raised e => Raised e
        | Returned indx =>
            match index (chain sampler) k with
            | Raised e => Raised e
            | Returned walker =>
                match index walker indx with
                | Raised e => Raised e
                | Returned b => best_fit_loop sampler rest (S k) t (Some b)
                end
            end
        end
      else best_fit_loop sampler rest (S k) mx best
  end.
Proof.
  cbn [best_fit_loop]. destruct (np_max row) as [t | e]; [| reflexivity].
  simpl. destruct (lnp_gtb t mx); [| reflexivity].
  destruct (index (np_where_eq row t 0) 0) as [indx | e]; [| reflexivity].
  simpl. destruct (index (chain sampler) k) as [walker | e]; [| reflexivity].
  simpl. now destruct (index walker indx).
Qed.

Lemma index_Returned {A} (l : list A) i v :
  index l i = Returned v -> l !! i = Some v.
Proof. unfold index. destruct (l !! i); [now intros [= ->] | discriminate]. Qed.

Lemma np_max_Returned row t :
  np_max row = Returned t ->
  t ∈ row /\ forall w, w ∈ row -> lnp_le w t.
Proof.
  intros Ht. destruct (np_max_spec row) as (t' & Ht' & Hin & Hall).
  - intros ->. discriminate.
  - assert (t' = t) as -> by congruence. now split.
Qed.

Lemma np_where_eq_lookup (row : list lnp) :
  forall off v i,
    np_where_eq row v off !! 0%nat = Some i ->
    exists j w, i = (off + j)%nat /\ row !! j = Some w /\ lnp_eqb w v = true.
Proof.
  induction row as [| a row IH]; intros off v i; simpl; [discriminate |].
  destruct (lnp_eqb a v) eqn:E.
  - intros [= <-]. exists 0%nat, a. split; [lia | now split].
  - intros H. destruct (IH (S off) v i H) as (j & w & -> & Hj & Hw).
    exists (S j), w. split; [lia | now split].
Qed.

(** The loop either keeps the best fit it was given, and then nothing it
    saw was above the running maximum, or it ends with the vector stored
    where a row holds a value that is above the running maximum and that
    nothing it saw exceeds. *)
Lemma best_fit_loop_sound (rows : list (list lnp)) :
  forall k mx best r,
    best_fit_loop sampler rows k mx best = Returned r ->
    (r = best /\ forall row w, row ∈ rows -> w ∈ row -> lnp_le w mx) \/
    (exists j row i M walker v,
       rows !! j = Some row /\ row !! i = Some M /\
       chain sampler !! (k + j)%nat = Some walker /\ walker !! i = Some v /\
       r = Some v /\ lnp_lt mx M /\
       forall row' w, row' ∈ rows -> w ∈ row' -> lnp_le w M).
Proof.
  induction rows as [| row rest IH]; intros k mx best r Hrun.
  - left. injection Hrun as <-. split; [reflexivity |].
    intros row w Hrow. now apply elem_of_nil in Hrow.
  - rewrite best_fit_loop_cons in Hrun.
    destruct (np_max row) as [t | e] eqn:Ht; [| discriminate].
    apply np_max_Returned in Ht as [Hin Hall].
    destruct (lnp_gtb t mx) eqn:Hgt.
    + destruct (index (np_where_eq row t 0) 0) as [indx | e] eqn:Hidx;
        [| discriminate].
      destruct (index (chain sampler) k) as [walker | e] eqn:Hw; [| discriminate].
      destruct (index walker indx) as [b | e] eqn:Hb; [| discriminate].
      apply index_Returned in Hidx, Hw, Hb.
      apply np_where_eq_lookup in Hidx as (i & M & -> & HM & Heq).
      simpl in Hb.
      destruct (IH (S k) t (Some b) r Hrun)
        as [[-> Hrest] | (j & row' & i' & M' & walker' & v & Hj & Hi & Hwk & Hv & -> & Hlt & Hrest)].
      * right. exists 0%nat, row, i, M, walker, b.
        rewrite Nat.add_0_r. repeat split; auto.
        -- clear - Hgt Heq. lnp_order.
        -- intros row' w Hrow' Hw'.
           apply elem_of_cons in Hrow' as [-> | Hrow'].
           ++ specialize (Hall w Hw'). clear - Hall Heq. lnp_order.
           ++ specialize (Hrest row' w Hrow' Hw'). clear - Hrest Heq. lnp_order.
      * right. exists (S j), row', i', M', walker', v.
        replace (k + S j)%nat with (S k + j)%nat by lia.
        repeat split; auto.
        -- clear - Hgt Hlt. lnp_order.
        -- intros row'' w Hrow'' Hw'.
           apply elem_of_cons in Hrow'' as [-> | Hrow''].
           ++ specialize (Hall w Hw'). clear - Hall Hlt. lnp_order.
           ++ now apply (Hrest row'').
    + destruct (IH (S k) mx best r Hrun)
        as [[-> Hrest] | (j & row' & i' & M' & walker' & v & Hj & Hi & Hwk & Hv & -> & Hlt & Hrest)].
      * left. split; [reflexivity |].
        intros row' w Hrow' Hw'.
        apply elem_of_cons in Hrow' as [-> | Hrow'].
        -- specialize (Hall w Hw'). clear - Hall Hgt. lnp_order.
        -- now apply (Hrest row').
      * right. exists (S j), row', i', M', walker', v.
        replace (k + S j)%nat with (S k + j)%nat by lia.
        repeat split; auto.
        intros row'' w Hrow'' Hw'.
        apply elem_of_cons in Hrow'' as [-> | Hrow''].
        -- specialize (Hall w Hw'). clear - Hall Hgt Hlt. lnp_order.
        -- now apply (Hrest row'').
Qed.

(** With a chain of the shape of [lnprobability], the loop raises only
    for a row without entries, and then raises [ValueError]. *)
Lemma best_fit_loop_returns (rows : list (list lnp)) :
  forall k mx best,
    (forall j row, rows !! j = Some row ->
       exists walker, chain sampler !! (k + j)%nat = Some walker /\
                      length row = length walker) ->
    (Forall (fun row => row <> []) rows ->
     exists r, best_fit_loop sampler rows k mx best = Returned r) /\
    (Exists (fun row => row = []) rows ->
     best_fit_loop sampler rows k mx best = Raised ValueError).
Proof.
  induction rows as [| row rest IH]; intros k mx best Hshape.
  - split; [intros _; now eexists | intros H; now apply Exists_nil in H].
  - assert (Hnext : forall j row', rest !! j = Some row' ->
              exists walker, chain sampler !! (S k + j)%nat = Some walker /\
                             length row' = length walker).
    { intros j row' Hj. replace (S k + j)%nat with (k + S j)%nat by lia.
      now apply (Hshape (S j)). }
    destruct (Hshape 0%nat row eq_refl) as (walker & Hw & Hlen).
    rewrite Nat.add_0_r in Hw. rewrite best_fit_loop_cons.
    destruct row as [| a row].
    { split; [intros H; apply Forall_cons in H as [H _]; congruence |
              reflexivity]. }
    destruct (np_max_spec (a :: row)) as (t & Ht & Hin & _); [discriminate |].
    rewrite Ht.
    assert (Hstep : forall mx' best',
              (Forall (fun row => row <> []) rest ->
               exists r, best_fit_loop sampler rest (S k) mx' best' = Returned r) /\
              (Exists (fun row => row = []) rest ->
               best_fit_loop sampler rest (S k) mx' best' = Raised ValueError))
      by (intros; now apply IH).
    assert (Hsplit : forall P : Prop,
              ((Forall (fun row => row <> []) rest -> P) ->
               Forall (fun row => row <> []) ((a :: row) :: rest) -> P)).
    { intros P HP H. apply Forall_cons in H as [_ H]. auto. }
    assert (Hex : Exists (fun row => row = []) ((a :: row) :: rest) ->
                  Exists (fun row => row = []) rest).
    { intros H. apply Exists_cons in H as [H | H]; [discriminate | exact H]. }
    destruct (lnp_gtb t mx).
    + destruct (np_where_eq_head (a :: row) 0%nat t) as (i & Hi & Hidx).
      { exists t. split; [exact Hin | apply lnp_eqb_refl]. }
      destruct (lookup_lt_is_Some_2 walker i) as [b Hb]; [lia |].
      rewrite (index_lookup _ _ _ Hidx), (index_lookup _ _ _ Hw). simpl.
      rewrite (index_lookup _ _ _ Hb).
      destruct (Hstep t (Some b)) as [H1 H2]. split; [now apply Hsplit | auto].
    + destruct (Hstep mx best) as [H1 H2]. split; [now apply Hsplit | auto].
Qed.

End BestFitResult.

(** X7.  Whenever [get_best_fit_params] returns a parameter vector, the
    vector is stored in the chain at a (walker, step) position whose
    log-probability is above [-1e32] and is not exceeded by any stored
    log-probability. *)
Theorem get_best_fit_params_sound sampler v :
  get_best_fit_params sampler = Returned (Some v) ->
  exists k row i M walker,
    lnprobability sampler !! k = Some row /\ row !! i = Some M /\
    chain sampler !! k = Some walker /\ walker !! i = Some v /\
    lnp_lt max_lnp_init M /\
    forall k' row' w, lnprobability sampler !! k' = Some row' -> w ∈ row' ->
      lnp_le w M.
Proof.
  intros Hrun.
  destruct (best_fit_loop_sound sampler _ _ _ _ _ Hrun)
    as [[[=] _] | (j & row & i & M & walker & v' & Hj & Hi & Hw & Hv & [= ->] & Hlt & Hall)].
  exists j, row, i, M, walker. repeat split; auto.
  intros k' row' w Hrow' Hw'. apply (Hall row'); [| exact Hw'].
  now apply (list_elem_of_lookup_2 _ k').
Qed.

(** X7 at a concrete sampler. *)
Lemma get_best_fit_params_sound_witness :
  exists k row i M walker,
    lnprobability two_walkers !! k = Some row /\ row !! i = Some M /\
    chain two_walkers !! k = Some walker /\ walker !! i = Some [10%Q] /\
    lnp_lt max_lnp_init M /\
    forall k' row' w, lnprobability two_walkers !! k' = Some row' -> w ∈ row' ->
      lnp_le w M.
Proof.
  apply (get_best_fit_params_sound two_walkers [10%Q]).
  vm_compute. reflexivity.
Defined.

(** X8.  On a sampler in which every walker has a stored step,
    [get_best_fit_params] returns [None] exactly when no stored
    log-probability is above [-1e32]. *)
Theorem get_best_fit_params_none_iff sampler :
  has_steps sampler ->
  get_best_fit_params sampler = Returned None <->
  (forall k row w, lnprobability sampler !! k = Some row -> w ∈ row ->
     lnp_le w max_lnp_init).
Proof.
  intros Hsteps. split.
  - intros Hrun k row w Hrow Hw.
    destruct (best_fit_loop_sound sampler _ _ _ _ _ Hrun)
      as [[_ Hall] | (j & row' & i & M & walker & v & _ & _ & _ & _ & [=] & _)].
    apply (Hall row); [| exact Hw]. now apply (list_elem_of_lookup_2 _ k).
  - intros Hall. unfold get_best_fit_params.
    apply (best_fit_loop_settled sampler max_lnp_init).
    + apply Forall_lookup. intros k row Hrow. split.
      * unfold has_steps in Hsteps. rewrite Forall_lookup in Hsteps. eauto.
      * intros w Hw. eapply Hall; eauto.
    + vm_compute. reflexivity.
Qed.

(** X8 at a sampler whose only sample was rejected. *)
Lemma get_best_fit_params_none_iff_witness :
  get_best_fit_params all_rejected = Returned None <->
  (forall k row w, lnprobability all_rejected !! k = Some row -> w ∈ row ->
     lnp_le w max_lnp_init).
Proof.
  apply (get_best_fit_params_none_iff all_rejected).
  repeat constructor. discriminate.
Defined.

(** X9.  On a sampler whose chain has the shape of its log-probabilities,
    [get_best_fit_params] returns when every walker has a stored step,
    and raises [ValueError] when some walker has none. *)
Theorem get_best_fit_params_raises sampler :
  same_shape sampler ->
  (has_steps sampler -> exists r, get_best_fit_params sampler = Returned r) /\
  (Exists (fun row => row = []) (lnprobability sampler) ->
   get_best_fit_params sampler = Raised ValueError).
Proof.
  intros Hshape. unfold get_best_fit_params, has_steps.
  apply best_fit_loop_returns. intros j row Hj. simpl.
  eapply Forall2_lookup_l in Hshape as (walker & ? & ?); eauto.
Qed.

(** X9 at a concrete sampler. *)
Lemma get_best_fit_params_raises_witness :
  (has_steps two_walkers -> exists r, get_best_fit_params two_walkers = Returned r) /\
  (Exists (fun row => row = []) (lnprobability two_walkers) ->
   get_best_fit_params two_walkers = Raised ValueError).
Proof.
  apply (get_best_fit_params_raises two_walkers).
  repeat constructor.
Defined.

(** ** The start positions, component by component *)

Section WalkerValues.

Lemma initial_guess_lookup (pd : gmap string Q) (names : list string) :
  forall p0,
    initial_guess pd names = Returned p0 ->
    forall j n, names !! j = Some n ->
      exists v, pd !! n = Some v /\ p0 !! j = Some v.
Proof.
  induction names as [| m names IH]; intros p0 Hrun j n Hj.
  - now rewrite lookup_nil in Hj.
  - simpl in Hrun. unfold getitem in Hrun.
    destruct (pd !! m) as [v |] eqn:Hv; [| discriminate]. simpl in Hrun.
    destruct (initial_guess pd names) as [r |] eqn:Hr; [| discriminate].
    simpl in Hrun. injection Hrun as <-.
    destruct j as [| j]; simpl in *.
    + injection Hj as <-. eauto.
    + now apply (IH r).
Qed.

Lemma initial_guess_missing (pd : gmap string Q) (names : list string) n :
  n ∈ names -> pd !! n = None ->
  initial_guess pd names = Raised KeyError.
Proof.
  induction names as [| m names IH]; intros Hin Hn.
  - now apply elem_of_nil in Hin.
  - simpl. unfold getitem. destruct (pd !! m) as [v |] eqn:Hv; [| reflexivity].
    apply elem_of_cons in Hin as [-> | Hin]; [congruence |].
    simpl. now rewrite (IH Hin Hn).
Qed.

Lemma clamp_within b c : within b c -> clamp b c = c.
Proof.
  destruct b as [lo hi]. unfold within, clamp, below, above, Qgtb. simpl.
  intros [Hlo Hhi].
  assert (match lo with Some l => Qltb c l | None => false end = false) as ->.
  { destruct lo as [l |]; [| reflexivity].
    apply Qltb_ge. now apply Hlo. }
  destruct hi as [h |]; [| reflexivity].
  assert (Qltb h c = false) as -> by (apply Qltb_ge; now apply Hhi).
  reflexivity.
Qed.

Lemma clamp_walker_inside model (names : list string) :
  forall k (cp : list Q),
    (forall j cname, names !! j = Some cname ->
       exists b c, bounds model !! cname = Some b /\
                   cp !! (k + j)%nat = Some c /\ within b c) ->
    clamp_walker model names k cp = Returned cp.
Proof.
  induction names as [| cname names IH]; intros k cp Hin; [reflexivity |].
  destruct (Hin 0%nat cname eq_refl) as (b & c & Hb & Hc & Hw).
  rewrite Nat.add_0_r in Hc.
  simpl. unfold getitem. rewrite Hb. simpl.
  rewrite (clamp_at_spec b k cp c Hc), (clamp_within b c Hw). simpl.
  rewrite (list_insert_id _ _ _ Hc). apply IH.
  intros j n Hj. replace (S k + j)%nat with (k + S j)%nat by lia.
  now apply (Hin (S j)).
Qed.

End WalkerValues.

(** X10.  Every component of every start position is the clamped
    perturbation of the model's value: for walker [k] and the fitted
    parameter at position [j], with model value [v0] (replaced by the
    zero replacement when it is zero), the component is
    [clamp (v0 * (1 + 1e-4 * normal k j))]. *)
Theorem init_walkers_closed_form zero_start normal model fit_param_names names :
  fit_names model fit_param_names = Returned names ->
  (forall n, n ∈ names ->
     is_Some (dict_zip (param_names model) (parameters model) !! n)) ->
  (forall n, n ∈ names -> is_Some (bounds model !! n)) ->
  exists p,
    init_walkers zero_start normal model fit_param_names = Returned p /\
    forall k cp j cname b v0,
      p !! k = Some cp -> names !! j = Some cname ->
      bounds model !! cname = Some b ->
      dict_zip (param_names model) (parameters model) !! cname = Some v0 ->
      cp !! j =
      Some (clamp b ((if Qeq_bool v0 0 then zero_start else v0) *
                     (1 + (1 # 10000) * normal k j))%Q).
Proof.
  intros Hnames Hdict Hb.
  destruct (initial_guess_spec _ names Hdict) as (p0 & Hp0 & Hlen0).
  set (start := scatter normal (nudge_zeros zero_start p0) <$>
                seq 0 (10 * length names)).
  destruct (clamp_walkers_spec model names start Hb) as (p & Hrun & Hall).
  { apply Forall_fmap, Forall_forall. intros k _. simpl.
    rewrite length_scatter. unfold nudge_zeros. now rewrite length_map. }
  exists p. split.
  - unfold init_walkers. rewrite Hnames. simpl. rewrite Hp0. simpl. exact Hrun.
  - intros k cp' j cname b v0 Hk Hj Hbn Hv0.
    destruct (Forall2_lookup_r _ _ _ _ _ Hall Hk) as (cp & Hcp & Hone).
    apply list_lookup_fmap_Some in Hcp as (k0 & -> & Hk0).
    apply lookup_seq in Hk0 as [-> _]. simpl in Hone.
    destruct (clamp_walker_spec model names 0%nat
                (scatter normal (nudge_zeros zero_start p0) k) Hb)
      as (cp2 & Hrun2 & _ & _ & Hup).
    { rewrite length_scatter. unfold nudge_zeros. rewrite length_map. simpl. lia. }
    assert (cp2 = cp') as -> by congruence.
    destruct (Hup j cname b Hj Hbn) as (c & Hc & Hres). simpl in Hc, Hres.
    rewrite Hres. do 2 f_equal.
    destruct (initial_guess_lookup _ _ _ Hp0 j cname Hj) as (v & Hv & Hpj).
    assert (v = v0) as -> by congruence.
    unfold scatter in Hc. rewrite list_lookup_imap in Hc.
    unfold nudge_zeros in Hc. rewrite lookup_map, Hpj in Hc. simpl in Hc.
    now injection Hc as <-.
Qed.

(** X10 at a concrete model. *)
Lemma init_walkers_closed_form_witness :
  exists p,
    init_walkers (24 # 10000) (fun _ _ => 100000%Q) (line_model 0 2) None =
      Returned p /\
    forall k cp j cname b v0,
      p !! k = Some cp -> ["a"; "b"] !! j = Some cname ->
      bounds (line_model 0 2) !! cname = Some b ->
      dict_zip (param_names (line_model 0 2)) (parameters (line_model 0 2))
        !! cname = Some v0 ->
      cp !! j =
      Some (clamp b ((if Qeq_bool v0 0 then 24 # 10000 else v0) *
                     (1 + (1 # 10000) * 100000))%Q).
Proof.
  apply (init_walkers_closed_form (24 # 10000) (fun _ _ => 100000%Q)
           (line_model 0 2) None ["a"; "b"]).
  - vm_compute. reflexivity.
  - intros n Hn.
    apply elem_of_cons in Hn as [-> | Hn]; [eexists; vm_compute; reflexivity |].
    apply elem_of_cons in Hn as [-> | Hn]; [eexists; vm_compute; reflexivity |].
    now apply elem_of_nil in Hn.
  - intros n Hn.
    apply elem_of_cons in Hn as [-> | Hn]; [eexists; vm_compute; reflexivity |].
    apply elem_of_cons in Hn as [-> | Hn]; [eexists; vm_compute; reflexivity |].
    now apply elem_of_nil in Hn.
Defined.

(** X11.  The clamping loop does not move a walker that is inside the
    bounds: when every fitted component lies within its [(min, max)]
    pair, the walker comes out as it went in. *)
Theorem clamp_walker_keeps_inside model names cp :
  (forall j cname, names !! j = Some cname ->
     exists b c, bounds model !! cname = Some b /\
                 cp !! j = Some c /\ within b c) ->
  clamp_walker model names 0 cp = Returned cp.
Proof.
  intros Hin. apply clamp_walker_inside. exact Hin.
Qed.

(** X11 at a concrete walker. *)
Lemma clamp_walker_keeps_inside_witness :
  clamp_walker (line_model 1 2) ["a"; "b"] 0 [3; 4]%Q = Returned [3; 4]%Q.
Proof.
  apply (clamp_walker_keeps_inside (line_model 1 2) ["a"; "b"] [3; 4]%Q).
  assert (Hw : forall c : Q, (0 <= c)%Q -> (c <= 10)%Q ->
                 within (Some 0%Q, Some 10%Q) c).
  { intros c H0 H10. split; intros ? [= <-]; assumption. }
  intros [| [| j]] cname Hj; simpl in Hj; try discriminate; injection Hj as <-.
  - exists (Some 0%Q, Some 10%Q), 3%Q.
    split; [vm_compute; reflexivity | split; [reflexivity |]].
    apply Hw; vm_compute; discriminate.
  - exists (Some 0%Q, Some 10%Q), 4%Q.
    split; [vm_compute; reflexivity | split; [reflexivity |]].
    apply Hw; vm_compute; discriminate.
Defined.

(** X12.  A fit-parameter name that is not a parameter of the model makes
    the walker set-up raise [KeyError]. *)
Theorem init_walkers_unknown_name zero_start normal model names n :
  n ∈ names ->
  dict_zip (param_names model) (parameters model) !! n = None ->
  init_walkers zero_start normal model (Some names) = Raised KeyError.
Proof.
  intros Hin Hn. unfold init_walkers. simpl.
  now rewrite (initial_guess_missing _ names n Hin Hn).
Qed.

(** X12 at a concrete model. *)
Lemma init_walkers_unknown_name_witness :
  init_walkers (24 # 10000) (fun _ _ => 1%Q) (line_model 1 2) (Some ["a"; "c"]) =
  Raised KeyError.
Proof.
  apply (init_walkers_unknown_name (24 # 10000) (fun _ _ => 1%Q) (line_model 1 2)
           ["a"; "c"] "c").
  - right. left.
  - vm_compute. reflexivity.
Defined.

(** ** The default fit parameters *)

(** Without a list from the caller, [p92_emcee] fits the model's
    parameters that are not fixed, in the model's order: the default list
    is the list of parameter names filtered by a false fixed flag.  Every
    parameter has a fixed flag. *)
Lemma fit_names_default model :
  (forall n, n ∈ param_names model -> is_Some (fixed model !! n)) ->
  fit_names model None =
  Returned (filter (fun n => fixed model !! n = Some false) (param_names model)).
Proof.
  unfold fit_names. generalize (param_names model) as names.
  induction names as [| n names IH]; intros Hflag; [reflexivity |].
  destruct (Hflag n) as [f Hf]; [left |].
  simpl. unfold getitem. rewrite Hf. simpl.
  rewrite IH by (intros m Hm; apply Hflag; now right). simpl.
  destruct f.
  - rewrite filter_cons_False; [reflexivity | congruence].
  - rewrite filter_cons_True; [reflexivity | exact Hf].
Qed.

(** ** The sampler [p92_emcee] hands to [get_best_fit_params] *)

Section EmceeShape.

Context {rstate : Type}.
Variable move : rstate -> list (list Q) -> list (list Q) * list lnp * rstate.

Hypothesis move_positions :
  forall st pos, length (move st pos).1.1 = length pos.
Hypothesis move_probabilities :
  forall st pos, length (move st pos).1.2 = length pos.

Lemma Forall_zip_with_snoc {A} (l : list (list A)) (xs : list A) n :
  Forall (fun r => length r = n) l ->
  Forall (fun r => length r = S n) (zip_with (fun r x => r ++ [x]) l xs).
Proof.
  intros Hl. apply Forall_lookup. intros i r Hi.
  apply lookup_zip_with_Some in Hi as (r0 & x & -> & Hr0 & _).
  rewrite Forall_lookup in Hl. rewrite length_app, (Hl i r0 Hr0). simpl. lia.
Qed.

Lemma stored_fresh W : stored (fresh W) W 0.
Proof.
  unfold stored, fresh. simpl. rewrite !length_replicate.
  repeat split; apply Forall_forall; intros r Hr;
    apply elem_of_replicate in Hr as [-> _]; reflexivity.
Qed.

Lemma stored_run_steps n :
  forall s pos prob st W a,
    stored s W a -> length pos = W ->
    stored (run_steps move n s pos prob st).1 W (a + n).
Proof.
  induction n as [| n IH]; intros s pos prob st W a Hs Hpos.
  - simpl. now rewrite Nat.add_0_r.
  - pose proof (move_positions st pos) as Hp.
    pose proof (move_probabilities st pos) as Hq.
    cbn [run_steps]. destruct (move st pos) as [[pos' prob'] st']. simpl in Hp, Hq.
    replace (a + S n)%nat with (S a + n)%nat by lia.
    apply IH; [| lia].
    destruct Hs as (Hc & Hl & Hfc & Hfl).
    unfold stored, record_step. simpl. rewrite !length_zip_with.
    repeat split; try lia; now apply Forall_zip_with_snoc.
Qed.

(** After burn-in, reset and sampling, every walker has [nsteps] stored
    steps in both arrays. *)
Lemma p92_emcee_sample_stored p burn nsteps st0 :
  (0 < burn)%nat -> (0 < nsteps)%nat ->
  exists s,
    p92_emcee_sample move p (Some burn) nsteps st0 = Returned s /\
    stored s (length p) nsteps.
Proof.
  intros Hb Hn. unfold p92_emcee_sample.
  rewrite (run_mcmc_steps move _ _ burn) by exact Hb.
  pose proof (run_steps_result move burn (fresh (length p)) p [] st0) as [Hpos _].
  pose proof (stored_run_steps burn (fresh (length p)) p [] st0 (length p) 0
                (stored_fresh _) eq_refl) as Hs1.
  pose proof (walk_length move move_positions burn p st0) as Hw.
  destruct (run_steps move burn (fresh (length p)) p [] st0)
    as [s1 [[pos prob] state]].
  cbn [fst snd] in Hpos, Hs1. subst pos.
  cbn [fst snd mbind result_bind Py.bind].
  rewrite (run_mcmc_steps move _ _ nsteps) by exact Hn.
  assert (Hreset : stored (reset s1) (length p) 0).
  { unfold reset. destruct Hs1 as (-> & _). apply stored_fresh. }
  pose proof (stored_run_steps nsteps (reset s1) (walk move burn p st0).1 []
                state (length p) 0 Hreset Hw) as Hs3.
  destruct (run_steps move nsteps (reset s1) (walk move burn p st0).1 [] state)
    as [s3 r3].
  cbn [fst snd mbind result_bind Py.bind] in *.
  exists s3. split; [reflexivity | exact Hs3].
Qed.

Lemma stored_same_shape s W n : stored s W n -> same_shape s.
Proof.
  intros (Hc & Hl & Hfc & Hfl). unfold same_shape.
  apply Forall2_same_length_lookup_2; [congruence |].
  intros i row walker Hrow Hwalker.
  rewrite (Forall_lookup_1 _ _ _ _ Hfl Hrow).
  now rewrite (Forall_lookup_1 _ _ _ _ Hfc Hwalker).
Qed.

Lemma stored_has_steps s W n : (0 < n)%nat -> stored s W n -> has_steps s.
Proof.
  intros Hn (_ & _ & _ & Hfl). unfold has_steps.
  eapply Forall_impl; [exact Hfl |]. intros [| a row] Hlen; simpl in *;
    [lia | discriminate].
Qed.

End EmceeShape.

(** X14.  The sampler [p92_emcee] builds can always be searched for its
    best fit: after a burn-in, the reset and [nsteps] sampling steps,
    every walker has exactly [nsteps] stored steps and
    [get_best_fit_params] returns without raising.  A move of the
    ensemble returns a position and a log-probability for every walker. *)
Theorem p92_emcee_best_fit_defined {rstate : Type}
    (move : rstate -> list (list Q) -> list (list Q) * list lnp * rstate)
    (p : list (list Q)) (burn nsteps : nat) (st0 : rstate) :
  (forall st pos, length (move st pos).1.1 = length pos) ->
  (forall st pos, length (move st pos).1.2 = length pos) ->
  (0 < burn)%nat -> (0 < nsteps)%nat ->
  exists s r,
    p92_emcee_sample move p (Some burn) nsteps st0 = Returned s /\
    Forall (fun walker => length walker = nsteps) (chain s) /\
    get_best_fit_params s = Returned r.
Proof.
  intros Hpos Hprob Hb Hn.
  destruct (p92_emcee_sample_stored move Hpos Hprob p burn nsteps st0 Hb Hn)
    as (s & Hs & Hst).
  pose proof (stored_same_shape s _ _ Hst) as Hshape.
  pose proof (stored_has_steps s _ _ Hn Hst) as Hsteps.
  destruct (best_fit_loop_returns s (lnprobability s) 0%nat max_lnp_init None)
    as [Hret _].
  { intros j row Hj. simpl.
    eapply Forall2_lookup_l in Hshape as (walker & ? & ?); eauto. }
  destruct (Hret Hsteps) as [r Hr].
  exists s, r. split; [exact Hs | split; [| exact Hr]].
  now destruct Hst as (_ & _ & Hfc & _).
Qed.

(** X14 at a concrete run. *)
Lemma p92_emcee_best_fit_defined_witness :
  exists s r,
    p92_emcee_sample drift [[0]; [10]]%Q (Some 1%nat) 2 tt = Returned s /\
    Forall (fun walker => length walker = 2%nat) (chain s) /\
    get_best_fit_params s = Returned r.
Proof.
  apply (p92_emcee_best_fit_defined drift [[0]; [10]]%Q 1 2 tt).
  - intros st pos. simpl. apply length_map.
  - intros st pos. simpl. apply length_map.
  - lia.
  - lia.
Defined.

(** ** The model [p92_emcee] returns *)

Section ReturnedModel.

Lemma known_assign model nvs n : known model n -> known (assign model nvs) n.
Proof. unfold known. now rewrite assign_param_names. Qed.

Lemma assign_cons model n v nvs :
  assign model ((n, v) :: nvs) = assign (store model n v) nvs.
Proof. reflexivity. Qed.

Lemma set_to_medians_assign (names : list string) (best : list Q)
    (pps : list (Q * Q * Q)) :
  forall k m,
    (forall n, n ∈ names -> known m n) ->
    (k + length pps <= length names)%nat ->
    (k + length pps <= length best)%nat ->
    set_to_medians m names (Some best) k pps =
    Returned (assign m (zip (drop k names) (map (fun v => v.1.1) pps))).
Proof.
  induction pps as [| val rest IH]; intros k m Hk Hlen Hbest.
  - simpl. now destruct (drop k names).
  - simpl in Hlen, Hbest.
    destruct (lookup_lt_is_Some_2 names k) as [cname Hc]; [lia |].
    destruct (lookup_lt_is_Some_2 best k) as [v Hv]; [lia |].
    cbn [set_to_medians]. rewrite (index_lookup _ _ _ Hc). simpl.
    rewrite set_value_known by (apply Hk; now apply (list_elem_of_lookup_2 _ k)).
    simpl. unfold subscript. rewrite (index_lookup _ _ _ Hv). simpl.
    rewrite (drop_S _ _ _ Hc). cbn [map zip zip_with].
    rewrite assign_cons. apply IH; try lia.
    intros n Hn. apply known_store. now apply Hk.
Qed.

Lemma set_to_medians_none (names : list string) (pps : list (Q * Q * Q)) :
  forall m cname,
    names !! 0%nat = Some cname -> known m cname -> pps <> [] ->
    set_to_medians m names None 0 pps = Raised TypeError.
Proof.
  intros m cname Hc Hk Hpp. destruct pps as [| val rest]; [contradiction |].
  cbn [set_to_medians]. rewrite (index_lookup _ _ _ Hc). simpl.
  rewrite set_value_known by exact Hk. reflexivity.
Qed.

Lemma set_to_best_assign (names : list string) (best : list Q)
    (pps : list (Q * Q * Q)) :
  forall k m,
    (forall n, n ∈ names -> known m n) ->
    (k + length pps <= length names)%nat ->
    (k + length pps <= length best)%nat ->
    set_to_best m names best k pps =
    Returned (assign m (zip (drop k names) (take (length pps) (drop k best)))).
Proof.
  induction pps as [| val rest IH]; intros k m Hk Hlen Hbest.
  - simpl. now destruct (drop k names).
  - simpl in Hlen, Hbest.
    destruct (lookup_lt_is_Some_2 names k) as [cname Hc]; [lia |].
    destruct (lookup_lt_is_Some_2 best k) as [v Hv]; [lia |].
    cbn [set_to_best]. rewrite (index_lookup _ _ _ Hc). simpl.
    rewrite (index_lookup _ _ _ Hv). simpl.
    rewrite set_value_known by (apply Hk; now apply (list_elem_of_lookup_2 _ k)).
    simpl. rewrite (drop_S _ _ _ Hc), (drop_S _ _ _ Hv).
    cbn [length take zip zip_with]. rewrite assign_cons. apply IH; try lia.
    intros n Hn. apply known_store. now apply Hk.
Qed.

End ReturnedModel.

(** X15.  When a best fit was found, [p92_emcee] of [calc_ext_wG20.py]
    returns a model in which every fitted parameter holds the median
    (50th percentile) of its samples, whatever values the sampling left
    in the model; the other parameters keep their values.  The
    fit-parameter names are distinct parameters of the model, and the
    best-fit vector has a component for each of them. *)
Theorem set_to_medians_medians percentile model_copy names best chain :
  aligned model_copy ->
  NoDup names ->
  (forall n, n ∈ names -> known model_copy n) ->
  length best = length names ->
  exists m,
    set_to_medians model_copy names (Some best) 0
      (per_params percentile chain (length names)) = Returned m /\
    (forall j n, names !! j = Some n ->
       get_value m n = Some (percentile (column j (concat chain)) 50%Q)) /\
    (forall n, n ∉ names -> get_value m n = get_value model_copy n).
Proof.
  intros Hal Hnd Hk Hbest.
  destruct (per_params_spec percentile chain (length names)) as [Hlen Hpp].
  set (pps := per_params percentile chain (length names)) in *.
  assert (Hfst : (zip names (map (fun v : Q * Q * Q => v.1.1) pps)).*1 = names).
  { apply fst_zip. rewrite length_map. lia. }
  exists (assign model_copy (zip names (map (fun v : Q * Q * Q => v.1.1) pps))).
  split; [| split].
  - rewrite (set_to_medians_assign names best pps 0%nat model_copy Hk)
      by (simpl; lia).
    reflexivity.
  - intros j n Hj. apply get_assign_member; auto.
    + now rewrite Hfst.
    + apply (list_elem_of_lookup_2 _ j). apply lookup_zip_Some.
      split; [exact Hj |]. rewrite lookup_map.
      rewrite (Hpp j) by (apply lookup_lt_Some in Hj; lia). reflexivity.
    + apply Hk. now apply (list_elem_of_lookup_2 _ j).
  - intros n Hn. apply get_assign_other. now rewrite Hfst.
Qed.

(** X15 at a concrete model and chain. *)
Lemma set_to_medians_medians_witness :
  exists m,
    set_to_medians (line_model 1 2) ["a"; "b"] (Some [3; 4]%Q) 0
      (per_params linear_percentile [[[1; 2]; [3; 4]]]%Q (length ["a"; "b"])) =
      Returned m /\
    (forall j n, ["a"; "b"] !! j = Some n ->
       get_value m n =
       Some (linear_percentile (column j (concat [[[1; 2]; [3; 4]]]%Q)) 50%Q)) /\
    (forall n, n ∉ ["a"; "b"] -> get_value m n = get_value (line_model 1 2) n).
Proof.
  apply (set_to_medians_medians linear_percentile (line_model 1 2) ["a"; "b"]
           [3; 4]%Q [[[1; 2]; [3; 4]]]%Q).
  - reflexivity.
  - apply NoDup_cons. split; [| apply NoDup_singleton].
    intros H. apply elem_of_cons in H as [H | H]; [discriminate |].
    now apply elem_of_nil in H.
  - intros n Hn.
    apply elem_of_cons in Hn as [-> | Hn]; [eexists; vm_compute; reflexivity |].
    apply elem_of_cons in Hn as [-> | Hn]; [eexists; vm_compute; reflexivity |].
    now apply elem_of_nil in Hn.
  - reflexivity.
Defined.

(** X31.  When no best fit was found ([get_best_fit_params] returned
    [None], as it does when no stored log-probability is above [-1e32])
    and there is a parameter to fit, [p92_emcee] of [calc_ext_wG20.py]
    does not return a model: after the first median has been assigned,
    [print] subscripts [None] and raises [TypeError].  The first
    fit-parameter name is a parameter of the model. *)
Theorem set_to_medians_no_best_fit percentile model_copy names cname chain :
  names !! 0%nat = Some cname ->
  known model_copy cname ->
  set_to_medians model_copy names None 0
    (per_params percentile chain (length names)) = Raised TypeError.
Proof.
  intros Hc Hk.
  destruct (per_params_spec percentile chain (length names)) as [Hlen _].
  apply (set_to_medians_none names _ model_copy cname Hc Hk).
  intros Hnil. rewrite Hnil in Hlen. simpl in Hlen.
  apply lookup_lt_Some in Hc. lia.
Qed.

(** X31 at a concrete model and chain. *)
Lemma set_to_medians_no_best_fit_witness :
  set_to_medians (line_model 1 2) ["a"; "b"] None 0
    (per_params linear_percentile [[[1; 2]; [3; 4]]]%Q (length ["a"; "b"])) =
  Raised TypeError.
Proof.
  apply (set_to_medians_no_best_fit linear_percentile (line_model 1 2)
           ["a"; "b"] "a" [[[1; 2]; [3; 4]]]%Q).
  - reflexivity.
  - eexists. vm_compute. reflexivity.
Defined.

(** X16.  [p92_emcee] of [calc_ext.py] and of [Figs/old/calc_ext_poly.py]
    returns a model in which every fitted parameter holds its component
    of the best-fit vector; the other parameters keep their values.  The
    fit-parameter names are distinct parameters of the model, and there is
    one best-fit component and one percentile triple per name. *)
Theorem set_to_best_best model_copy names best per_params :
  aligned model_copy ->
  NoDup names ->
  (forall n, n ∈ names -> known model_copy n) ->
  length best = length names ->
  length per_params = length names ->
  exists m,
    set_to_best model_copy names best 0 per_params = Returned m /\
    (forall j n v, names !! j = Some n -> best !! j = Some v ->
       get_value m n = Some v) /\
    (forall n, n ∉ names -> get_value m n = get_value model_copy n).
Proof.
  intros Hal Hnd Hk Hbest Hpp.
  assert (Htake : take (length per_params) best = best).
  { apply take_ge. lia. }
  assert (Hfst : (zip names best).*1 = names).
  { apply fst_zip. lia. }
  exists (assign model_copy (zip names best)). split; [| split].
  - rewrite (set_to_best_assign names best per_params 0%nat model_copy Hk)
      by (simpl; lia).
    change (drop 0 names) with names. change (drop 0 best) with best.
    now rewrite Htake.
  - intros j n v Hj Hv. apply get_assign_member; auto.
    + now rewrite Hfst.
    + apply (list_elem_of_lookup_2 _ j). now apply lookup_zip_Some.
    + apply Hk. now apply (list_elem_of_lookup_2 _ j).
  - intros n Hn. apply get_assign_other. now rewrite Hfst.
Qed.

(** X16 at a concrete model. *)
Lemma set_to_best_best_witness :
  exists m,
    set_to_best (line_model 1 2) ["a"; "b"] [7; 8]%Q 0
      [(0, 0, 0); (0, 0, 0)]%Q = Returned m /\
    (forall j n v, ["a"; "b"] !! j = Some n -> [7; 8]%Q !! j = Some v ->
       get_value m n = Some v) /\
    (forall n, n ∉ ["a"; "b"] -> get_value m n = get_value (line_model 1 2) n).
Proof.
  apply (set_to_best_best (line_model 1 2) ["a"; "b"] [7; 8]%Q
           [(0, 0, 0); (0, 0, 0)]%Q).
  - reflexivity.
  - apply NoDup_cons. split; [| apply NoDup_singleton].
    intros H. apply elem_of_cons in H as [H | H]; [discriminate |].
    now apply elem_of_nil in H.
  - intros n Hn.
    apply elem_of_cons in Hn as [-> | Hn]; [eexists; vm_compute; reflexivity |].
    apply elem_of_cons in Hn as [-> | Hn]; [eexists; vm_compute; reflexivity |].
    now apply elem_of_nil in Hn.
  - reflexivity.
  - reflexivity.
Defined.

(** ** The model after the walker samples have been drawn *)

Section Replay.

Variable chain : list (list (list Q)).
Variable names : list string.
Variable k : nat.
Variable walker : list (list Q).
Hypothesis walker_k : chain !! k = Some walker.

Lemma replay_step_assign j step (fit : list string) :
  walker !! j = Some step ->
  forall i m,
    (forall n, n ∈ fit -> known m n) ->
    (i + length fit <= length step)%nat ->
    replay_step m chain k j i fit = Returned (assign m (zip fit (drop i step))).
Proof.
  intros Hstep. induction fit as [| pname rest IH]; intros i m Hk Hlen;
    [reflexivity |].
  simpl in Hlen.
  destruct (lookup_lt_is_Some_2 step i) as [v Hv]; [lia |].
  cbn [replay_step]. rewrite (index_lookup _ _ _ walker_k). simpl.
  rewrite (index_lookup _ _ _ Hstep). simpl.
  rewrite (index_lookup _ _ _ Hv). simpl.
  rewrite set_value_known by (apply Hk; left). simpl.
  rewrite (drop_S _ _ _ Hv). cbn [zip zip_with]. rewrite assign_cons.
  apply IH; [| lia]. intros n Hn. apply known_store. apply Hk. now right.
Qed.

Lemma replay_steps_last (Hnd : NoDup names) count :
  forall j m,
    aligned m ->
    (forall n, n ∈ names -> known m n) ->
    (forall t, (t < count)%nat ->
       exists step, walker !! (j + t)%nat = Some step /\
                    (length names <= length step)%nat) ->
    exists m',
      replay_steps m chain names k j count = Returned m' /\
      (forall last, (0 < count)%nat ->
         walker !! (j + count - 1)%nat = Some last ->
         forall i n v, names !! i = Some n -> last !! i = Some v ->
           get_value m' n = Some v) /\
      (forall n, n ∉ names -> get_value m' n = get_value m n).
Proof.
  induction count as [| c IH]; intros j m Hal Hk Hsteps.
  - exists m. split; [reflexivity |]. split; [intros last H; lia | reflexivity].
  - destruct (Hsteps 0%nat) as (step & Hstep & Hlen); [lia |].
    rewrite Nat.add_0_r in Hstep.
    set (m1 := assign m (zip names step)).
    assert (Hfst : (zip names step).*1 = names) by (apply fst_zip; lia).
    destruct (IH (S j) m1) as (m' & Hrun & Hlast & Hother).
    { now apply assign_aligned. }
    { intros n Hn. apply known_assign. now apply Hk. }
    { intros t Ht. replace (S j + t)%nat with (j + S t)%nat by lia.
      apply Hsteps. lia. }
    exists m'. split; [| split].
    + cbn [replay_steps].
      rewrite (replay_step_assign j step names Hstep 0%nat m Hk) by (simpl; lia).
      exact Hrun.
    + intros last _ Hl i n v Hn Hv.
      destruct c as [| c].
      * replace (j + 1 - 1)%nat with j in Hl by lia.
        assert (last = step) as -> by congruence.
        simpl in Hrun. injection Hrun as <-.
        apply get_assign_member; auto.
        -- now rewrite Hfst.
        -- apply (list_elem_of_lookup_2 _ i). now apply lookup_zip_Some.
        -- apply Hk. now apply (list_elem_of_lookup_2 _ i).
      * apply (Hlast last ltac:(lia)) with (i := i); [| exact Hn | exact Hv].
        now replace (S j + S c - 1)%nat with (j + S (S c) - 1)%nat by lia.
    + intros n Hn. rewrite (Hother n Hn). apply get_assign_other.
      now rewrite Hfst.
Qed.

End Replay.

(** X17.  In [calc_ext_wG20.py], once the walker samples have been drawn,
    the model returned by [p92_emcee] no longer holds the medians: every
    fitted parameter holds its component of the last stored step of
    walker 0, and the other parameters are as before.  There is at least
    one stored step, every stored step of walker 0 has a component for
    every name, and the names are distinct parameters of the model. *)
Theorem replay_walkers_last model chain names nsteps walker last :
  aligned model ->
  NoDup names ->
  (forall n, n ∈ names -> known model n) ->
  chain !! 0%nat = Some walker ->
  (forall t, (t < nsteps)%nat ->
     exists step, walker !! t = Some step /\ (length names <= length step)%nat) ->
  (0 < nsteps)%nat ->
  walker !! (nsteps - 1)%nat = Some last ->
  exists m,
    replay_walkers model chain names nsteps = Returned m /\
    (forall i n v, names !! i = Some n -> last !! i = Some v ->
       get_value m n = Some v) /\
    (forall n, n ∉ names -> get_value m n = get_value model n).
Proof.
  intros Hal Hnd Hk Hw Hsteps Hn Hlast.
  destruct (replay_steps_last chain names 0%nat walker Hw Hnd nsteps 0%nat model
              Hal Hk Hsteps) as (m & Hrun & Hl & Hother).
  exists m. split; [exact Hrun | split; [| exact Hother]].
  apply (Hl last Hn). exact Hlast.
Qed.

(** X17 at a concrete chain of one walker and two steps. *)
Lemma replay_walkers_last_witness :
  exists m,
    replay_walkers (line_model 1 2) [[[3; 4]; [5; 6]]]%Q ["a"; "b"] 2 = Returned m /\
    (forall i n v, ["a"; "b"] !! i = Some n -> [5; 6]%Q !! i = Some v ->
       get_value m n = Some v) /\
    (forall n, n ∉ ["a"; "b"] -> get_value m n = get_value (line_model 1 2) n).
Proof.
  apply (replay_walkers_last (line_model 1 2) [[[3; 4]; [5; 6]]]%Q ["a"; "b"] 2
           [[3; 4]; [5; 6]]%Q [5; 6]%Q).
  - reflexivity.
  - apply NoDup_cons. split; [| apply NoDup_singleton].
    intros H. apply elem_of_cons in H as [H | H]; [discriminate |].
    now apply elem_of_nil in H.
  - intros n Hn.
    apply elem_of_cons in Hn as [-> | Hn]; [eexists; vm_compute; reflexivity |].
    apply elem_of_cons in Hn as [-> | Hn]; [eexists; vm_compute; reflexivity |].
    now apply elem_of_nil in Hn.
  - reflexivity.
  - intros [| [| t]] Ht; [eexists; split; [reflexivity | simpl; lia] ..| lia].
  - lia.
  - reflexivity.
Defined.

(** ** Clean parameter names *)

Section CleanNames.

Lemma substring_prefix (a b : string) :
  String.substring 0 (String.length a) (a +:+ b) = a.
Proof.
  induction a as [| c a IH]; simpl.
  - now destruct b.
  - now rewrite IH.
Qed.

Lemma length_append (a b : string) :
  String.length (a +:+ b) = (String.length a + String.length b)%nat.
Proof. induction a as [| c a IH]; simpl; [reflexivity | now rewrite IH]. Qed.

End CleanNames.

(** X18.  The clean name of a parameter is the name without its
    two-character suffix: for every base name and every suffix of two
    characters, such as the ["_0"] a compound model appends,
    [(base + suffix)[:-2]] is the base name. *)
Theorem clean_pname_strips_suffix (base suffix : string) :
  String.length suffix = 2%nat ->
  clean_pname (base +:+ suffix) = base.
Proof.
  intros Hs. unfold clean_pname. rewrite length_append, Hs.
  replace (String.length base + 2 - 2)%nat with (String.length base) by lia.
  apply substring_prefix.
Qed.

(** X18 at a parameter of the compound model. *)
Lemma clean_pname_strips_suffix_witness :
  clean_pname ("SIL1_amp" +:+ "_0") = "SIL1_amp".
Proof.
  apply (clean_pname_strips_suffix "SIL1_amp" "_0"). reflexivity.
Defined.

(** ** The Drude profile *)

Section DrudeProfile.

Lemma drude_width_pos (c w : R) : c <> 0%R -> w <> 0%R -> (0 < (w / c) ^ 2)%R.
Proof.
  intros Hc Hw.
  replace ((w / c) ^ 2)%R with (Rsqr (w / c)) by (unfold Rsqr; ring).
  apply Rsqr_pos_lt. unfold Rdiv.
  apply Rmult_integral_contrapositive_currified;
    [exact Hw | now apply Rinv_neq_0_compat].
Qed.

Lemma drude_bounds (x amplitude c w : R) :
  (0 <= amplitude)%R -> c <> 0%R -> w <> 0%R ->
  (0 <= amplitude * ((w / c) ^ 2) / ((x / c - c / x) ^ 2 + (w / c) ^ 2)
     <= amplitude)%R.
Proof.
  intros Ha Hc Hw.
  pose proof (drude_width_pos c w Hc Hw) as Hr.
  pose proof (pow2_ge_0 (x / c - c / x)) as Hd.
  set (r := ((w / c) ^ 2)%R) in *. set (d := ((x / c - c / x) ^ 2)%R) in *.
  assert (Hden : (0 < d + r)%R) by lra.
  split.
  - apply Rmult_le_pos; [nra |]. left. now apply Rinv_0_lt_compat.
  - apply (Rmult_le_reg_r (d + r)); [exact Hden |].
    unfold Rdiv. rewrite Rmult_assoc, Rinv_l by lra. nra.
Qed.

Lemma drude_mirror (x amplitude c w : R) :
  x <> 0%R -> c <> 0%R ->
  (amplitude * ((w / c) ^ 2) /
     ((c * c / x / c - c / (c * c / x)) ^ 2 + (w / c) ^ 2))%R =
  (amplitude * ((w / c) ^ 2) / ((x / c - c / x) ^ 2 + (w / c) ^ 2))%R.
Proof.
  intros Hx Hc.
  replace (c * c / x / c - c / (c * c / x))%R with (- (x / c - c / x))%R
    by (field; split; assumption).
  now replace ((- (x / c - c / x)) ^ 2)%R with ((x / c - c / x) ^ 2)%R by ring.
Qed.

End DrudeProfile.



(** ** The background term of [G20] *)

Section Background.

Lemma np_power_pos (x y : R) : (0 < np_power x y)%R.
Proof. unfold np_power, Rpower. apply exp_pos. Qed.

Lemma np_power_neg (x y : R) : np_power x (-1 * y) = (/ np_power x y)%R.
Proof.
  unfold np_power, Rpower.
  replace (-1 * y * ln x)%R with (- (y * ln x))%R by ring.
  apply exp_Ropp.
Qed.

Lemma sum_with_inverse (e : R) : (0 < e)%R -> (2 <= e + / e)%R.
Proof.
  intros He.
  assert (Hinv : (/ e * e = 1)%R) by (apply Rinv_l; lra).
  apply (Rmult_le_reg_r e); [exact He |].
  rewrite Rmult_plus_distr_r, Hinv.
  pose proof (Rle_0_sqr (e - 1)) as Hsq. unfold Rsqr in Hsq. lra.
Qed.

Lemma g20_bkg_term_peak_aux (in_lambda amplitude cen_wave b n : R) :
  (0 <= amplitude)%R -> (-2 < b)%R ->
  (0 <= G20._g20_bkg_term in_lambda amplitude cen_wave b n
     <= amplitude / (2 + b))%R.
Proof.
  intros Ha Hb. unfold G20._g20_bkg_term. cbv zeta.
  rewrite np_power_neg.
  pose proof (np_power_pos (in_lambda / cen_wave) n) as He.
  pose proof (sum_with_inverse _ He) as Hsum.
  set (e := np_power (in_lambda / cen_wave) n) in *.
  assert (Hden : (0 < e + / e + b)%R) by lra.
  split.
  - apply Rmult_le_pos; [exact Ha |]. left. now apply Rinv_0_lt_compat.
  - unfold Rdiv. apply Rmult_le_compat_l; [exact Ha |].
    apply Rinv_le_contravar; lra.
Qed.

End Background.

(** X23.  The background term of [G20] peaks at its centre: for positive
    wavelengths, a non-negative amplitude and [b > -2] it is non-negative
    and nowhere above [amplitude / (2 + b)], the value it takes at the
    central wavelength. *)
Theorem g20_bkg_term_peak (in_lambda amplitude cen_wave b n : R) :
  (0 < in_lambda)%R -> (0 < cen_wave)%R ->
  (0 <= amplitude)%R -> (-2 < b)%R ->
  (0 <= G20._g20_bkg_term in_lambda amplitude cen_wave b n
     <= amplitude / (2 + b))%R.
Proof.
  intros _ _ Ha Hb. now apply g20_bkg_term_peak_aux.
Qed.

(** X23 at the default background. *)
Lemma g20_bkg_term_peak_witness :
  (0 <= G20._g20_bkg_term 3 1 (47 / 1000) 90 2 <= 1 / (2 + 90))%R.
Proof.
  apply (g20_bkg_term_peak 3 1 (47 / 1000) 90 2); lra.
Defined.

(** ** [G20.evaluate] inside its range *)

Section G20InRange.

Lemma in_range_passes (in_x : list R) :
  Forall in_x_range in_x ->
  existsb (G20.out_of_range G20.x_range) in_x = false.
Proof.
  intros Hall. induction Hall as [| x l [Hlo Hhi] _ IH]; [reflexivity |].
  simpl. rewrite IH, orb_false_r.
  unfold G20.out_of_range, G20.x_range. simpl.
  destruct (Rlt_dec x (1 / 1000)); [lra |].
  destruct (Rlt_dec (1 / (1 / 1000)) x); [lra | reflexivity].
Qed.

End G20InRange.



(** ** Selections and their averages *)

Section Selections.

Lemma np_where_none (mask : list bool) :
  forall off, Forall (fun b => b = false) mask -> np_where mask off = [].
Proof.
  induction mask as [| b mask IH]; intros off Hall; [reflexivity |].
  apply Forall_cons in Hall as [-> Hall]. simpl. now apply IH.
Qed.

(** Taking the entries of [y] at the true positions of a mask returns
    exactly those entries. *)
Lemma np_take_where (mask : list bool) :
  forall off (y : list Q),
    (off + length mask <= length y)%nat ->
    exists sel,
      np_take y (np_where mask off) = Returned sel /\
      (forall v, v ∈ sel ->
         exists j, mask !! j = Some true /\ y !! (off + j)%nat = Some v) /\
      (forall j v, mask !! j = Some true -> y !! (off + j)%nat = Some v ->
         v ∈ sel).
Proof.
  induction mask as [| b mask IH]; intros off y Hlen.
  - exists []. split; [reflexivity |]. split.
    + intros v Hv. now apply elem_of_nil in Hv.
    + intros j v Hj. now rewrite lookup_nil in Hj.
  - simpl in Hlen. destruct (IH (S off) y) as (sel & Hrun & Hsound & Hfull); [lia |].
    assert (Hshift : forall j, (S off + j)%nat = (off + S j)%nat) by (intros; lia).
    destruct b; simpl.
    + destruct (lookup_lt_is_Some_2 y off) as [v0 Hv0]; [lia |].
      rewrite (index_lookup _ _ _ Hv0). simpl. rewrite Hrun. simpl.
      exists (v0 :: sel). split; [reflexivity |]. split.
      * intros v Hv. apply elem_of_cons in Hv as [-> | Hv].
        -- exists 0%nat. rewrite Nat.add_0_r. now split.
        -- destruct (Hsound v Hv) as (j & Hj & Hy). exists (S j).
           rewrite <- Hshift. now split.
      * intros [| j] v Hj Hy.
        -- rewrite Nat.add_0_r in Hy. assert (v = v0) as -> by congruence. left.
        -- right. apply (Hfull j); [exact Hj |]. now rewrite Hshift.
    + exists sel. split; [exact Hrun |]. split.
      * intros v Hv. destruct (Hsound v Hv) as (j & Hj & Hy). exists (S j).
        rewrite <- Hshift. now split.
      * intros [| j] v Hj Hy; [discriminate |].
        apply (Hfull j); [exact Hj |]. now rewrite Hshift.
Qed.

End Selections.

(** X25.  Without a data point beyond 5 micron the first guess of A(V)
    is 1.0, whatever the measurements are.  No wavenumber is zero. *)
Theorem av_guess_default (x y : list Q) :
  Forall (fun xi => ~ (xi == 0)%Q) x ->
  Forall (fun xi => ~ (5 < 1 / xi)%Q) x ->
  av_guess x y = Returned 1%Q.
Proof.
  intros _ Hall. unfold av_guess.
  rewrite np_where_none; [reflexivity |].
  apply Forall_forall. intros b Hb.
  apply list_elem_of_In, in_map_iff in Hb as (xi & <- & Hxi).
  apply list_elem_of_In in Hxi. rewrite Forall_forall in Hall.
  specialize (Hall xi Hxi). unfold Qgtb.
  destruct (Qltb 5 (1 / xi)) eqn:E; [| reflexivity].
  apply Qltb_lt in E. contradiction.
Qed.

(** X25 at data that stop at 2 micron. *)
Lemma av_guess_default_witness :
  av_guess [1; 2]%Q [5; -2]%Q = Returned 1%Q.
Proof.
  apply (av_guess_default [1; 2]%Q [5; -2]%Q).
  - repeat constructor; vm_compute; discriminate.
  - repeat constructor; vm_compute; discriminate.
Defined.

(** ** The y-range of the inset *)

Section InsetRange.

Lemma running_min_spec (rest : list Q) :
  forall v,
    (foldl (fun m w => if Qltb w m then w else m) v rest <= v)%Q /\
    forall w, w ∈ rest ->
      (foldl (fun m w => if Qltb w m then w else m) v rest <= w)%Q.
Proof.
  induction rest as [| a rest IH]; intros v; simpl.
  - split; [lra |]. intros w Hw. now apply elem_of_nil in Hw.
  - destruct (IH (if Qltb a v then a else v)) as [Hle Hall].
    assert (Hstep : ((if Qltb a v then a else v) <= v /\
                     (if Qltb a v then a else v) <= a)%Q).
    { destruct (Qltb a v) eqn:E.
      - apply Qltb_lt in E. split; lra.
      - apply Qltb_ge in E. split; lra. }
    split; [lra |].
    intros w Hw. apply elem_of_cons in Hw as [-> | Hw]; [lra | now apply Hall].
Qed.

Lemma running_max_ge (rest : list Q) :
  forall v,
    (v <= foldl (fun m w => if Qgtb w m then w else m) v rest)%Q /\
    forall w, w ∈ rest ->
      (w <= foldl (fun m w => if Qgtb w m then w else m) v rest)%Q.
Proof.
  induction rest as [| a rest IH]; intros v; simpl.
  - split; [lra |]. intros w Hw. now apply elem_of_nil in Hw.
  - destruct (IH (if Qgtb a v then a else v)) as [Hle Hall].
    assert (Hstep : (v <= (if Qgtb a v then a else v) /\
                     a <= (if Qgtb a v then a else v))%Q).
    { unfold Qgtb. destruct (Qltb v a) eqn:E.
      - apply Qltb_lt in E. split; lra.
      - apply Qltb_ge in E. split; lra. }
    split; [lra |].
    intros w Hw. apply elem_of_cons in Hw as [-> | Hw]; [lra | now apply Hall].
Qed.

Lemma py_min_spec (a : list Q) :
  a <> [] ->
  exists m, py_min a = Returned m /\ forall v, v ∈ a -> (m <= v)%Q.
Proof.
  destruct a as [| v rest]; [congruence | intros _].
  destruct (running_min_spec rest v) as [Hle Hall].
  eexists. split; [reflexivity |].
  intros w Hw. apply elem_of_cons in Hw as [-> | Hw]; auto.
Qed.

Lemma py_max_spec (a : list Q) :
  a <> [] ->
  exists m, py_max a = Returned m /\ forall v, v ∈ a -> (v <= m)%Q.
Proof.
  destruct a as [| v rest]; [congruence | intros _].
  destruct (running_max_ge rest v) as [Hle Hall].
  eexists. split; [reflexivity |].
  intros w Hw. apply elem_of_cons in Hw as [-> | Hw]; auto.
Qed.

Lemma window_mask (x : list Q) j :
  map (fun xi => Qgtb xi (1 / 35) && Qltb xi (1 / 2)) x !! j = Some true <->
  exists xj, x !! j = Some xj /\ in_window xj.
Proof.
  rewrite lookup_map. unfold in_window, Qgtb. split.
  - destruct (x !! j) as [xj |]; [| discriminate]. simpl. intros [= H].
    apply andb_true_iff in H as [H1 H2]. apply Qltb_lt in H1, H2. eauto.
  - intros (xj & -> & H1 & H2). simpl. f_equal.
    apply andb_true_iff. split; now apply Qltb_lt.
Qed.

End InsetRange.

(** X27.  The y-range of the inset holds every value of the fitted model
    between 2 and 35 micron, and its lower end is not above [-A(V)].  The
    model returns one value per wavenumber and some wavenumber lies in the
    window. *)
Theorem inset_ylim_contains (p92_fit : Model) (x fit : list Q) (best_fit_Av : Q) :
  call p92_fit x = Returned fit ->
  length fit = length x ->
  (exists i xi, x !! i = Some xi /\ in_window xi) ->
  exists lo hi,
    inset_ylim p92_fit x best_fit_Av = Returned (lo, hi) /\
    (forall i xi v, x !! i = Some xi -> in_window xi -> fit !! i = Some v ->
       (lo <= v <= hi)%Q) /\
    (lo <= - best_fit_Av)%Q.
Proof.
  intros Hcall Hlen (i & xi & Hxi & Hwin). unfold inset_ylim. rewrite Hcall.
  set (mask := map (fun xi : Q => Qgtb xi (1 / 35) && Qltb xi (1 / 2)) x).
  destruct (np_take_where mask 0%nat fit) as (sel & Hsel & _ & Hfull).
  { unfold mask. rewrite length_map. simpl. lia. }
  assert (Hin : forall j xj v, x !! j = Some xj -> in_window xj ->
            fit !! j = Some v -> v ∈ sel).
  { intros j xj v Hj Hw Hv. apply (Hfull j); [| exact Hv].
    apply window_mask. eauto. }
  destruct (lookup_lt_is_Some_2 fit i) as [vi Hvi].
  { rewrite Hlen. now apply lookup_lt_Some in Hxi. }
  pose proof (Hin i xi vi Hxi Hwin Hvi) as Hvi_in.
  assert (Hne : sel <> []) by (intros ->; now apply elem_of_nil in Hvi_in).
  destruct (py_min_spec sel Hne) as (m1 & Hm1 & Hmin).
  destruct (py_min_spec [m1; (- best_fit_Av)%Q]) as (m2 & Hm2 & Hmin2);
    [discriminate |].
  destruct (py_max_spec sel Hne) as (M & HM & Hmax).
  cbn [mbind result_bind Py.bind]. rewrite Hsel.
  cbn [mbind result_bind Py.bind]. rewrite Hm1.
  cbn [mbind result_bind Py.bind]. rewrite Hm2.
  cbn [mbind result_bind Py.bind]. rewrite HM.
  cbn [mbind result_bind Py.bind].
  assert (H21 : (m2 <= m1)%Q) by (apply Hmin2; left).
  assert (H2a : (m2 <= - best_fit_Av)%Q) by (apply Hmin2; right; left).
  exists (m2 - (1 # 10))%Q, (M + (1 # 10))%Q. split; [reflexivity |].
  split.
  - intros j xj v Hj Hw Hv. pose proof (Hin j xj v Hj Hw Hv) as Hv_in.
    pose proof (Hmin v Hv_in). pose proof (Hmax v Hv_in). split; lra.
  - lra.
Qed.

(** X27 at a straight line through the window. *)
Lemma inset_ylim_contains_witness :
  exists lo hi,
    inset_ylim (line_model 1 0) [(1 # 10); (1 # 4); 1]%Q 3 = Returned (lo, hi) /\
    (forall i xi v, [(1 # 10); (1 # 4); 1]%Q !! i = Some xi -> in_window xi ->
       [1 * (1 # 10) + 0; 1 * (1 # 4) + 0; 1 * 1 + 0]%Q !! i = Some v ->
       (lo <= v <= hi)%Q) /\
    (lo <= - 3)%Q.
Proof.
  apply (inset_ylim_contains (line_model 1 0) [(1 # 10); (1 # 4); 1]%Q
           [1 * (1 # 10) + 0; 1 * (1 # 4) + 0; 1 * 1 + 0]%Q 3).
  - reflexivity.
  - reflexivity.
  - exists 0%nat, (1 # 10)%Q. split; [reflexivity |].
    split; vm_compute; reflexivity.
Defined.

(** X28.  Without a wavenumber between 2 and 35 micron the computation of
    the inset's y-range raises [ValueError]: the minimum of no value is
    asked for. *)
Theorem inset_ylim_no_data (p92_fit : Model) (x fit : list Q) (best_fit_Av : Q) :
  call p92_fit x = Returned fit ->
  Forall (fun xi => ~ in_window xi) x ->
  inset_ylim p92_fit x best_fit_Av = Raised ValueError.
Proof.
  intros Hcall Hall. unfold inset_ylim. rewrite Hcall.
  rewrite np_where_none; [reflexivity |].
  apply Forall_forall. intros b Hb.
  apply list_elem_of_lookup in Hb as [j Hj].
  destruct b; [| reflexivity].
  apply window_mask in Hj as (xj & Hxj & Hw).
  rewrite Forall_forall in Hall. exfalso. apply (Hall xj); [| exact Hw].
  now apply (list_elem_of_lookup_2 _ j).
Qed.

(** X28 at data that stop short of 2 micron. *)
Lemma inset_ylim_no_data_witness :
  inset_ylim (line_model 1 0) [1; 2]%Q 3 = Raised ValueError.
Proof.
  apply (inset_ylim_no_data (line_model 1 0) [1; 2]%Q
           [1 * 1 + 0; 1 * 2 + 0]%Q 3).
  - reflexivity.
  - repeat constructor; intros [H1 H2]; vm_compute in H2; discriminate.
Defined.

(** ** The list of curves *)

Section CurveListFacts.

Variable load : string -> ExtCurve.
Variable argsort : list (option Q) -> list nat.

(** [np.argsort] returns every index of its argument once. *)
Hypothesis argsort_indices :
  forall a, argsort a ≡ₚ seq 0 (length a).

Lemma read_lines_spec (file_lines : list string) :
  forall extnames normvals,
    (read_lines load file_lines extnames normvals).1 =
      extnames ++ map rstrip (filter (fun l => is_entry l = true) file_lines) /\
    (read_lines load file_lines extnames normvals).2 =
      normvals ++
      map (fun l => if is_entry l
                    then normval (load ("fits/" +:+ rstrip l))
                    else Some 1%Q) file_lines.
Proof.
  induction file_lines as [| line rest IH]; intros extnames normvals.
  - simpl. now rewrite !app_nil_r.
  - cbn [read_lines map]. destruct (is_entry line) eqn:E.
    + destruct (IH (extnames ++ [rstrip line])
                   (normvals ++ [normval (load ("fits/" +:+ rstrip line))]))
        as [Hn Hv].
      rewrite Hn, Hv. rewrite filter_cons_True by exact E.
      simpl. now rewrite <- !app_assoc.
    + destruct (IH extnames (normvals ++ [Some 1%Q])) as [Hn Hv].
      rewrite Hn, Hv. rewrite filter_cons_False by congruence.
      now rewrite <- !app_assoc.
Qed.

Lemma fancy_index_map {A} (a : list A) (d : A) (indxs : list nat) :
  Forall (fun i => i < length a)%nat indxs ->
  fancy_index a indxs = Returned (map (fun i => nth i a d) indxs).
Proof.
  induction indxs as [| i rest IH]; intros Hall; [reflexivity |].
  apply Forall_cons in Hall as [Hi Hall].
  destruct (lookup_lt_is_Some_2 a i Hi) as [v Hv].
  simpl. rewrite (index_lookup _ _ _ Hv). simpl. rewrite (IH Hall). simpl.
  now rewrite (nth_lookup_Some _ _ d v Hv).
Qed.

Lemma fancy_index_raises {A} (a : list A) (indxs : list nat) :
  Exists (fun i => length a <= i)%nat indxs ->
  fancy_index a indxs = Raised IndexError.
Proof.
  induction indxs as [| i rest IH]; intros Hex.
  - now apply Exists_nil in Hex.
  - simpl. unfold index. destruct (a !! i) as [v |] eqn:Hv; [| reflexivity].
    simpl. apply Exists_cons in Hex as [Hi | Hex].
    + apply lookup_lt_Some in Hv. lia.
    + now rewrite (IH Hex).
Qed.

Lemma map_nth_seq {A} (a : list A) (d : A) :
  map (fun i => nth i a d) (seq 0 (length a)) = a.
Proof.
  apply (nth_ext _ _ d d).
  - now rewrite length_map, length_seq.
  - intros i Hi. rewrite length_map, length_seq in Hi.
    rewrite (nth_indep _ d (nth 0 a d)) by now rewrite length_map, length_seq.
    rewrite (map_nth (fun i => nth i a d)). now rewrite seq_nth.
Qed.

Lemma sindxs_indices (normvals : list (option Q)) :
  reverse (argsort normvals) ≡ₚ seq 0 (length normvals).
Proof. rewrite reverse_Permutation. apply argsort_indices. Qed.

Lemma sindxs_in_range (normvals : list (option Q)) :
  Forall (fun i => i < length normvals)%nat (reverse (argsort normvals)).
Proof.
  apply Forall_forall. intros i Hi.
  apply list_elem_of_In in Hi.
  apply (Permutation_in _ (sindxs_indices normvals)) in Hi.
  apply in_seq in Hi. lia.
Qed.

End CurveListFacts.

(** X29.  A comment line, one that starts with [#], in the list of curves
    stops the script: the line adds a value to [normvals] but no name to
    [extnames], so the indices that sort [normvals] do not all fit
    [extnames] and [np.array(extnames)[sindxs]] raises [IndexError].
    [np.argsort] returns every index of its argument once. *)
Theorem sort_curves_comment_line (load : string -> ExtCurve)
    (argsort : list (option Q) -> list nat) (file_lines : list string) :
  (forall a, argsort a ≡ₚ seq 0 (length a)) ->
  Exists (fun line => String.prefix "#" line = true) file_lines ->
  sort_curves load argsort file_lines = Raised IndexError.
Proof.
  intros Hsort Hex. unfold sort_curves.
  assert (Hex' : Exists (fun line => is_entry line = false) file_lines).
  { eapply Exists_impl; [exact Hex |]. intros line Hline.
    unfold is_entry. now rewrite Hline. }
  clear Hex. rename Hex' into Hex.
  destruct (read_lines_spec load file_lines [] []) as [Hn Hv].
  destruct (read_lines load file_lines [] []) as [extnames normvals].
  simpl in Hn, Hv.
  rewrite (fancy_index_map normvals None _
             (sindxs_in_range argsort Hsort normvals)). simpl.
  rewrite fancy_index_raises; [reflexivity |].
  apply Exists_exists in Hex as (line & Hin & Hline).
  assert (Hlen : (length extnames < length normvals)%nat).
  { rewrite Hn, Hv, !length_map.
    apply (length_filter_lt _ _ line Hin). congruence. }
  apply Exists_exists. exists (length normvals - 1)%nat. split; [| lia].
  apply list_elem_of_In.
  apply (Permutation_in _ (Permutation_sym (sindxs_indices argsort Hsort normvals))).
  apply in_seq. lia.
Qed.

(** X29 on a list with one curve and one comment. *)
Lemma sort_curves_comment_line_witness :
  sort_curves (fun _ => {| AV := 1; IUE := None |})
              (fun a => seq 0 (length a))
              ["hd029647_hd034759_ext.fits" +:+ newline; "# hd014956" +:+ newline] =
  Raised IndexError.
Proof.
  apply sort_curves_comment_line.
  - reflexivity.
  - right. left. reflexivity.
Defined.

(** X30.  On a list without comment lines the script sorts the curves: it
    returns every name of the list once, trailing whitespace removed, and
    each value of the sorted [normvals] is the value of the curve whose
    name stands at the same place in the sorted [extnames].
    [np.argsort] returns every index of its argument once, and no curve
    has an A(V) of zero. *)
Theorem sort_curves_entries (load : string -> ExtCurve)
    (argsort : list (option Q) -> list nat) (file_lines : list string) :
  (forall a, argsort a ≡ₚ seq 0 (length a)) ->
  (forall name, ~ (AV (load name) == 0)%Q) ->
  Forall (fun line => is_entry line = true) file_lines ->
  exists normvals extnames,
    sort_curves load argsort file_lines = Returned (normvals, extnames) /\
    extnames ≡ₚ map rstrip file_lines /\
    normvals = map (fun name => normval (load ("fits/" +:+ name))) extnames.
Proof.
  intros Hsort _ Hall. unfold sort_curves.
  destruct (read_lines_spec load file_lines [] []) as [Hn Hv].
  destruct (read_lines load file_lines [] []) as [extnames normvals].
  simpl in Hn, Hv.
  assert (Hnames : extnames = map rstrip file_lines).
  { rewrite Hn. f_equal. clear -Hall.
    induction Hall as [| line rest Hline _ IH]; [reflexivity |].
    rewrite filter_cons_True by exact Hline. now rewrite IH. }
  assert (Hvals : normvals =
                  map (fun name => normval (load ("fits/" +:+ name))) extnames).
  { rewrite Hv, Hnames, map_map. clear -Hall.
    induction Hall as [| line rest Hline _ IH]; [reflexivity |].
    simpl. now rewrite Hline, IH. }
  assert (Hlen : length normvals = length extnames)
    by now rewrite Hvals, length_map.
  pose proof (sindxs_in_range argsort Hsort normvals) as Hin.
  rewrite (fancy_index_map normvals
             (normval (load ("fits/" +:+ ""))) _ Hin). simpl.
  rewrite (fancy_index_map extnames ""%string) by now rewrite <- Hlen.
  simpl. eexists _, _. split; [reflexivity |]. split.
  - rewrite <- Hnames.
    pose proof (Permutation_map (fun i => nth i extnames ""%string)
                  (sindxs_indices argsort Hsort normvals)) as Hp.
    rewrite Hlen, map_nth_seq in Hp. exact Hp.
  - rewrite map_map. apply map_ext. intros i.
    rewrite Hvals at 1.
    apply (map_nth (fun name => normval (load ("fits/" +:+ name)))).
Qed.

(** X30 on a list of two curves, the second with the larger value. *)
Lemma sort_curves_entries_witness :
  exists normvals extnames,
    sort_curves two_curves (fun a => seq 0 (length a))
      ["a.fits" +:+ newline; "b.fits" +:+ newline] =
      Returned (normvals, extnames) /\
    extnames ≡ₚ map rstrip ["a.fits" +:+ newline; "b.fits" +:+ newline] /\
    normvals = map (fun name => normval (two_curves ("fits/" +:+ name))) extnames.
Proof.
  apply sort_curves_entries.
  - reflexivity.
  - intros name. vm_compute. discriminate.
  - repeat constructor.
Defined.
